(** * TokenizerApp: the [Tokenizer] class of [src/App.jsx]

    A shallow embedding of the dynamic-vocabulary tokenizer (class
    [Tokenizer], lines 8-122 of [src/App.jsx]) and the properties its
    specification states about it.

    Conventions of the embedding.
    - A JavaScript string is a Rocq [string]; every character stands for one
      UTF-16 code unit below 256 (the Latin-1 range), on which
      [String.prototype.toLowerCase] and the regular-expression classes
      [\w] and [\s] are given in full.
    - A JavaScript number that holds an integer is a [Z].  Used as a property
      key it is rendered by [pretty], the decimal rendering that [ToString]
      gives for every integral number below 10^21 in magnitude.
    - The objects [tokenToId], [idToToken] and [specialTokenIds] are used as
      maps and are [gmap]s over their own properties.  The object [freq] of
      [train] is an association list, because [Object.entries] observes the
      order of its keys. *)

From Stdlib Require Import Ascii.
From stdpp Require Import gmap strings list pretty sorting.

Open Scope string_scope.
Open Scope list_scope.
Open Scope Z_scope.

Set Warnings "-register-all,-clear-no-such-hyp".

(** ** Characters and strings *)

Module JsString.

Definition code (c : ascii) : N := Ascii.N_of_ascii c.

Definition between (lo hi : N) (c : ascii) : bool :=
  ((lo <=? code c) && (code c <=? hi))%N.

(** [\w], that is [[A-Za-z0-9_]]. *)
Definition is_word (c : ascii) : bool :=
  between 48 57 c || between 65 90 c || (code c =? 95)%N || between 97 122 c.

(** [\s] restricted to code units below 256: TAB, LF, VT, FF, CR, SP and
    NBSP. *)
Definition is_space (c : ascii) : bool :=
  between 9 13 c || (code c =? 32)%N || (code c =? 160)%N.

(** The class [[\w']] of the first alternative of the token pattern. *)
Definition is_run (c : ascii) : bool := is_word c || (code c =? 39)%N.

(** The class [[.,!?;:]] of the de-spacing pattern. *)
Definition is_punct (c : ascii) : bool :=
  (code c =? 46)%N || (code c =? 44)%N || (code c =? 33)%N
  || (code c =? 63)%N || (code c =? 59)%N || (code c =? 58)%N.

(** [toLowerCase] on one code unit: [A-Z] and the Latin-1 capitals
    U+00C0..U+00DE other than the multiplication sign U+00D7. *)
Definition lower_char (c : ascii) : ascii :=
  if between 65 90 c || (between 192 222 c && negb (code c =? 215)%N)
  then Ascii.ascii_of_N (code c + 32)
  else c.

Fixpoint toLowerCase (s : string) : string :=
  match s with
  | EmptyString => EmptyString
  | String c s' => String (lower_char c) (toLowerCase s')
  end.

(** [flush run rest]: the pending run of [[\w']] characters, if any, is the
    next match. *)
Definition flush (run : string) (rest : list string) : list string :=
  if decide (run = "") then rest else run :: rest.

(** [text.match(/[\w']+|[^\s\w]/g) || []]: the matches of the global
    pattern from left to right.  [run] is the maximal run of [[\w']]
    characters read so far; a white-space character only separates, and any
    other character is a match of its own. *)
Fixpoint scan (run : string) (s : string) : list string :=
  match s with
  | EmptyString => flush run []
  | String c s' =>
      if is_run c then scan (run +:+ String c "") s'
      else flush run
             (if is_space c then scan "" s' else String c "" :: scan "" s')
  end.

Definition match_tokens (text : string) : list string := scan "" text.

(** [Array.prototype.join(" ")] on an array of strings. *)
Fixpoint join_sp (l : list string) : string :=
  match l with
  | [] => ""
  | [x] => x
  | x :: l' => x +:+ " " +:+ join_sp l'
  end.

(** [s.replace(/\s([.,!?;:])/g, "$1")]: every white-space character that
    is directly followed by one of the six punctuation marks is dropped;
    matching resumes after the mark. *)
Fixpoint despace (s : string) : string :=
  match s with
  | EmptyString => EmptyString
  | String c s' =>
      match s' with
      | EmptyString => String c EmptyString
      | String d s'' =>
          if is_space c && is_punct d then String d (despace s'')
          else String c (despace s')
      end
  end.

(** A text made of white space only (the empty text included). *)
Fixpoint all_space (s : string) : bool :=
  match s with
  | EmptyString => true
  | String c s' => is_space c && all_space s'
  end.

End JsString.

Import JsString.

(** ** Arrays and own-property order *)

Module JsObject.

(** The value of a string of decimal digits, [None] when another character
    occurs. *)
Fixpoint digits_value (acc : N) (s : string) : option N :=
  match s with
  | EmptyString => Some acc
  | String c s' =>
      if between 48 57 c then digits_value (acc * 10 + (code c - 48))%N s'
      else None
  end.

(** A property key is an array index when it is the canonical decimal
    rendering of an integer below 2^32 - 1. *)
Definition array_index (k : string) : option N :=
  match k with
  | EmptyString => None
  | _ =>
      match digits_value 0 k with
      | Some n =>
          if decide (pretty n = k ∧ (n < 4294967295)%N) then Some n else None
      | None => None
      end
  end.

Section Sort.
Context {A : Type} (compare : A → A → Z).

(** [insert_sorted x l] puts [x], which came before all of [l] in the
    input, in front of the first element it need not follow. *)
Fixpoint insert_sorted (x : A) (l : list A) : list A :=
  match l with
  | [] => [x]
  | y :: l' =>
      if compare x y <=? 0 then x :: y :: l' else y :: insert_sorted x l'
  end.

(** [Array.prototype.sort(compare)].  The sort is stable, and for a
    consistent comparator the sorted array is determined by that; it is
    computed here by insertion. *)
Fixpoint array_sort (l : list A) : list A :=
  match l with
  | [] => []
  | x :: l' => insert_sorted x (array_sort l')
  end.
End Sort.

(** An object used as a table of counters, its string keys in the order of
    their creation. *)
Definition table := list (string * Z).

(** [freq[t] = (freq[t] || 0) + 1] *)
Fixpoint bump (k : string) (f : table) : table :=
  match f with
  | [] => [(k, 1)]
  | (k', n) :: f' =>
      if decide (k = k') then (k', n + 1) :: f' else (k', n) :: bump k f'
  end.

Definition index_of (e : string * Z) : Z :=
  match array_index e.1 with Some n => Z.of_N n | None => 0 end.

(** [Object.entries(f)]: the array-index keys in ascending numeric order,
    then the other keys in the order of their creation. *)
Definition entries (f : table) : list (string * Z) :=
  array_sort (λ a b, index_of a - index_of b)
             (filter (λ e, is_Some (array_index e.1)) f)
  ++ filter (λ e, ¬ is_Some (array_index e.1)) f.

End JsObject.

Import JsObject.

(** ** JSON texts *)

Module Json.

(** The values [JSON.parse] builds.  A string is its sequence of code
    units, which a [\u] escape may take beyond 255.  A number written with
    a fraction or an exponent keeps its text. *)
Inductive value :=
| Null
| Bool (b : bool)
| Int (z : Z)
| Real (lexeme : string)
| Str (s : list N)
| Arr (l : list value)
| Obj (l : list (list N * value)).

Inductive token :=
| TLBrace | TRBrace | TLBracket | TRBracket | TColon | TComma
| TScalar (v : value).

Inductive numstate :=
| NMinus | NZero | NInt | NDot | NFrac | NExp | NExpSign | NExpDigits.

Inductive mode :=
| Top
| InLit (rest : string) (v : value)
| InStr (acc : list N)
| InEsc (acc : list N)
| InHex (acc : list N) (missing : nat) (h : N)
| InNum (st : numstate) (lexeme : string).

Definition is_digit (c : ascii) : bool := between 48 57 c.
Definition is_e (c : ascii) : bool := (code c =? 101)%N || (code c =? 69)%N.

Definition hex_value (c : ascii) : option N :=
  if between 48 57 c then Some (code c - 48)%N
  else if between 97 102 c then Some (code c - 87)%N
  else if between 65 70 c then Some (code c - 55)%N
  else None.

(** The integer a lexeme without fraction and exponent denotes. *)
Definition int_of_lexeme (lexeme : string) : Z :=
  match lexeme with
  | String c s' =>
      if (code c =? 45)%N then - Z.of_N (default 0%N (digits_value 0 s'))
      else Z.of_N (default 0%N (digits_value 0 lexeme))
  | EmptyString => 0
  end.

Definition number_value (st : numstate) (lexeme : string) : option value :=
  match st with
  | NZero | NInt => Some (Int (int_of_lexeme lexeme))
  | NFrac | NExpDigits => Some (Real lexeme)
  | NMinus | NDot | NExp | NExpSign => None
  end.

(** A character met between two tokens. *)
Definition top_char (c : ascii) : option (mode * list token) :=
  let n := code c in
  if (n =? 32)%N || (n =? 9)%N || (n =? 10)%N || (n =? 13)%N then Some (Top, [])
  else if (n =? 123)%N then Some (Top, [TLBrace])
  else if (n =? 125)%N then Some (Top, [TRBrace])
  else if (n =? 91)%N then Some (Top, [TLBracket])
  else if (n =? 93)%N then Some (Top, [TRBracket])
  else if (n =? 58)%N then Some (Top, [TColon])
  else if (n =? 44)%N then Some (Top, [TComma])
  else if (n =? 34)%N then Some (InStr [], [])
  else if (n =? 110)%N then Some (InLit "ull" Null, [])
  else if (n =? 116)%N then Some (InLit "rue" (Bool true), [])
  else if (n =? 102)%N then Some (InLit "alse" (Bool false), [])
  else if (n =? 45)%N then Some (InNum NMinus (String c ""), [])
  else if (n =? 48)%N then Some (InNum NZero (String c ""), [])
  else if between 49 57 c then Some (InNum NInt (String c ""), [])
  else None.

(** The number is over at [c]: it is emitted and [c] is read afresh. *)
Definition end_number (st : numstate) (lexeme : string) (c : ascii)
  : option (mode * list token) :=
  v ← number_value st lexeme;
  '(m, out) ← top_char c;
  Some (m, TScalar v :: out).

Definition num_char (st : numstate) (lexeme : string) (c : ascii)
  : option (mode * list token) :=
  let more st' := Some (InNum st' (lexeme +:+ String c ""), []) in
  let dot := (code c =? 46)%N in
  match st with
  | NMinus =>
      if (code c =? 48)%N then more NZero
      else if is_digit c then more NInt else None
  | NZero =>
      if dot then more NDot else if is_e c then more NExp
      else end_number st lexeme c
  | NInt =>
      if is_digit c then more NInt else if dot then more NDot
      else if is_e c then more NExp else end_number st lexeme c
  | NDot => if is_digit c then more NFrac else None
  | NFrac =>
      if is_digit c then more NFrac else if is_e c then more NExp
      else end_number st lexeme c
  | NExp =>
      if (code c =? 43)%N || (code c =? 45)%N then more NExpSign
      else if is_digit c then more NExpDigits else None
  | NExpSign => if is_digit c then more NExpDigits else None
  | NExpDigits =>
      if is_digit c then more NExpDigits else end_number st lexeme c
  end.

Definition escape_char (c : ascii) : option N :=
  let n := code c in
  if (n =? 34)%N || (n =? 92)%N || (n =? 47)%N then Some n
  else if (n =? 98)%N then Some 8%N
  else if (n =? 102)%N then Some 12%N
  else if (n =? 110)%N then Some 10%N
  else if (n =? 114)%N then Some 13%N
  else if (n =? 116)%N then Some 9%N
  else None.

Definition lex_char (m : mode) (c : ascii) : option (mode * list token) :=
  match m with
  | Top => top_char c
  | InLit rest v =>
      match rest with
      | String e rest' =>
          if decide (c = e)
          then Some (match rest' with
                     | EmptyString => (Top, [TScalar v])
                     | _ => (InLit rest' v, [])
                     end)
          else None
      | EmptyString => None
      end
  | InStr acc =>
      if (code c =? 34)%N then Some (Top, [TScalar (Str acc)])
      else if (code c =? 92)%N then Some (InEsc acc, [])
      else if (code c <? 32)%N then None
      else Some (InStr (acc ++ [code c]), [])
  | InEsc acc =>
      if (code c =? 117)%N then Some (InHex acc 4 0%N, [])
      else n ← escape_char c; Some (InStr (acc ++ [n]), [])
  | InHex acc missing h =>
      d ← hex_value c;
      let h' := (h * 16 + d)%N in
      match missing with
      | S (S k) => Some (InHex acc (S k) h', [])
      | _ => Some (InStr (acc ++ [h']), [])
      end
  | InNum st lexeme => num_char st lexeme c
  end.

Definition lex_end (m : mode) : option (list token) :=
  match m with
  | Top => Some []
  | InNum st lexeme => v ← number_value st lexeme; Some [TScalar v]
  | _ => None
  end.

Fixpoint lex (m : mode) (s : string) : option (list token) :=
  match s with
  | EmptyString => lex_end m
  | String c s' =>
      '(m', out) ← lex_char m c;
      rest ← lex m' s';
      Some (out ++ rest)
  end.

(** The parser keeps the containers under construction on a stack. *)
Inductive frame :=
| FArr (done : list value)
| FObj (done : list (list N * value)) (key : list N).

Inductive pstate :=
| PValue (stk : list frame)
| PArrFirst (stk : list frame)
| PArrNext (done : list value) (stk : list frame)
| PObjFirst (stk : list frame)
| PObjKey (done : list (list N * value)) (stk : list frame)
| PObjColon (done : list (list N * value)) (key : list N) (stk : list frame)
| PObjNext (done : list (list N * value)) (stk : list frame)
| PDone (v : value).

(** A value is complete: it goes into the container on top of the stack. *)
Definition reduce (v : value) (stk : list frame) : pstate :=
  match stk with
  | [] => PDone v
  | FArr done :: stk' => PArrNext (done ++ [v]) stk'
  | FObj done key :: stk' => PObjNext (done ++ [(key, v)]) stk'
  end.

Definition start_value (t : token) (stk : list frame) : option pstate :=
  match t with
  | TScalar v => Some (reduce v stk)
  | TLBracket => Some (PArrFirst stk)
  | TLBrace => Some (PObjFirst stk)
  | _ => None
  end.

Definition parse_token (p : pstate) (t : token) : option pstate :=
  match p, t with
  | PValue stk, _ => start_value t stk
  | PArrFirst stk, TRBracket => Some (reduce (Arr []) stk)
  | PArrFirst stk, _ => start_value t (FArr [] :: stk)
  | PArrNext done stk, TComma => Some (PValue (FArr done :: stk))
  | PArrNext done stk, TRBracket => Some (reduce (Arr done) stk)
  | PObjFirst stk, TRBrace => Some (reduce (Obj []) stk)
  | PObjFirst stk, TScalar (Str k) => Some (PObjColon [] k stk)
  | PObjKey done stk, TScalar (Str k) => Some (PObjColon done k stk)
  | PObjColon done k stk, TColon => Some (PValue (FObj done k :: stk))
  | PObjNext done stk, TComma => Some (PObjKey done stk)
  | PObjNext done stk, TRBrace => Some (reduce (Obj done) stk)
  | _, _ => None
  end.

Fixpoint parse_tokens (p : pstate) (ts : list token) : option value :=
  match ts with
  | [] => match p with PDone v => Some v | _ => None end
  | t :: ts' => p' ← parse_token p t; parse_tokens p' ts'
  end.

(** [JSON.parse(s)]; [None] is the [SyntaxError]. *)
Definition parse (s : string) : option value :=
  ts ← lex Top s; parse_tokens (PValue []) ts.

(** The string of a sequence of code units that are all below 256. *)
Fixpoint narrow (u : list N) : option string :=
  match u with
  | [] => Some ""
  | n :: u' =>
      if (n <? 256)%N then String (Ascii.ascii_of_N n) <$> narrow u'
      else None
  end.

Fixpoint widen (s : string) : list N :=
  match s with
  | EmptyString => []
  | String c s' => code c :: widen s'
  end.

(** The own property [k] of an object; of two members with one key the
    later one is kept. *)
Fixpoint own (l : list (list N * value)) (k : list N) : option value :=
  match l with
  | [] => None
  | (k', v) :: l' =>
      match own l' k with
      | Some w => Some w
      | None => if decide (k = k') then Some v else None
      end
  end.

End Json.

(** The double quote, for writing JSON texts. *)
Definition dq : string := String (Ascii.ascii_of_N 34) "".
Definition quoted (s : string) : string := dq +:+ s +:+ dq.

(** ** The tokenizer object *)

(** The surface strings of the four special tokens, in the key order of
    [this.specialTokens].  The option [specialTokens] of the constructor
    replaces some of the four defaults; an option that adds keys of its own
    is not covered. *)
Record SpecialTokens := {
  PAD : string;
  UNK : string;
  BOS : string;
  EOS : string
}.

Definition default_specialTokens : SpecialTokens :=
  {| PAD := "[PAD]"; UNK := "[UNK]"; BOS := "[BOS]"; EOS := "[EOS]" |}.

(** [Object.values(this.specialTokens)] *)
Definition special_values (s : SpecialTokens) : list string :=
  [PAD s; UNK s; BOS s; EOS s].

(** The entries of [this.specialTokens], as [Object.keys] lists them. *)
Definition special_entries (s : SpecialTokens) : list (string * string) :=
  [("PAD", PAD s); ("UNK", UNK s); ("BOS", BOS s); ("EOS", EOS s)].

(** What the reads [this.tokenToId[t]] and [this.specialTokenIds.BOS] can
    yield: [undefined], a number, or a member that an ordinary object takes
    from [Object.prototype]. *)
Inductive jsval :=
| Undefined
| Num (z : Z)
| Inherited (name : string).

Global Instance jsval_eq_dec : EqDecision jsval.
Proof. solve_decision. Defined.

(** The property names of [Object.prototype]; none of them is [undefined]. *)
Definition object_prototype_keys : list string :=
  ["constructor"; "hasOwnProperty"; "isPrototypeOf"; "propertyIsEnumerable";
   "toLocaleString"; "toString"; "valueOf"; "__proto__";
   "__defineGetter__"; "__defineSetter__";
   "__lookupGetter__"; "__lookupSetter__"].

(** The fields of a [Tokenizer].  [tokenToId_proto] tells whether the object
    in [this.tokenToId] has [Object.prototype] on its chain: it has not when
    made by [Object.create(null)], it has when made by [JSON.parse].  The
    keys looked up in the two other maps are renderings of numbers and the
    names [BOS], [EOS] and [UNK], which no prototype provides. *)
Record Tokenizer := {
  lowercase : bool;
  learnOnEncode : bool;
  specialTokens : SpecialTokens;
  tokenToId_proto : bool;
  tokenToId : gmap string Z;
  idToToken : gmap string string;
  vocabSize : Z;
  specialTokenIds : gmap string jsval
}.

Definition with_vocab (t : Tokenizer) (proto : bool) (t2i : gmap string Z)
    (i2t : gmap string string) (n : Z) (sp : gmap string jsval) : Tokenizer :=
  {| lowercase := lowercase t; learnOnEncode := learnOnEncode t;
     specialTokens := specialTokens t;
     tokenToId_proto := proto; tokenToId := t2i; idToToken := i2t;
     vocabSize := n; specialTokenIds := sp |}.

(** [this.tokenToId[k]] *)
Definition tokenToId_get (t : Tokenizer) (k : string) : jsval :=
  match tokenToId t !! k with
  | Some id => Num id
  | None =>
      if tokenToId_proto t && bool_decide (k ∈ object_prototype_keys)
      then Inherited k else Undefined
  end.

(** [this.specialTokenIds[k]] *)
Definition specialTokenIds_get (t : Tokenizer) (k : string) : jsval :=
  default Undefined (specialTokenIds t !! k).

(** [_addToken(token)]: the value returned and the tokenizer afterwards. *)
Definition _addToken (token : string) (t : Tokenizer) : jsval * Tokenizer :=
  match tokenToId_get t token with
  | Undefined =>
      let id := vocabSize t in
      (Num id,
       with_vocab t (tokenToId_proto t)
         (<[token := id]> (tokenToId t))
         (<[pretty id := token]> (idToToken t))
         (id + 1)
         (specialTokenIds t))
  | v => (v, t)
  end.

(** One round of the loop of [resetVocab]:
    [this.specialTokenIds[key] = this._addToken(tok)]. *)
Definition reserve (t : Tokenizer) (e : string * string) : Tokenizer :=
  let '(id, t') := _addToken e.2 t in
  with_vocab t' (tokenToId_proto t') (tokenToId t') (idToToken t')
    (vocabSize t') (<[e.1 := id]> (specialTokenIds t')).

Definition resetVocab (t : Tokenizer) : Tokenizer :=
  foldl reserve (with_vocab t false ∅ ∅ 0 ∅) (special_entries (specialTokens t)).

(** [new Tokenizer({lowercase, specialTokens, learnOnEncode})], the options
    resolved against their defaults. *)
Definition new_Tokenizer (lc : bool) (sp : SpecialTokens) (learn : bool)
  : Tokenizer :=
  resetVocab
    {| lowercase := lc; learnOnEncode := learn; specialTokens := sp;
       tokenToId_proto := false; tokenToId := ∅; idToToken := ∅;
       vocabSize := 0; specialTokenIds := ∅ |}.

Definition default_Tokenizer : Tokenizer :=
  new_Tokenizer true default_specialTokens true.

(** [if (this.lowercase) text = text.toLowerCase();
     const tokens = text.match(...) || [];] *)
Definition tokens_of (t : Tokenizer) (text : string) : list string :=
  match_tokens (if lowercase t then toLowerCase text else text).

(** *** train *)

(** [for (const t of tokens) freq[t] = (freq[t] || 0) + 1;] *)
Definition count_tokens (tokens : list string) : table :=
  foldl (λ f tok, bump tok f) [] tokens.

(** [Object.entries(freq).sort((a, b) => b[1] - a[1])] *)
Definition sorted_entries (freq : table) : list (string * Z) :=
  array_sort (λ a b, b.2 - a.2) (entries freq).

(** [maxVocab && this.vocabSize - reserved >= maxVocab]; [maxVocab] is
    [null] or a number, and neither [null] nor [0] is truthy. *)
Definition bound_reached (maxVocab : option Z) (nonSpecial : Z) : bool :=
  match maxVocab with
  | Some m => negb (m =? 0) && (m <=? nonSpecial)
  | None => false
  end.

(** The loop over the sorted entries, with its [break]. *)
Fixpoint train_loop (maxVocab : option Z) (reserved : Z)
    (candidates : list string) (t : Tokenizer) : Tokenizer :=
  match candidates with
  | [] => t
  | token :: rest =>
      if bound_reached maxVocab (vocabSize t - reserved) then t
      else
        train_loop maxVocab reserved rest
          (match tokenToId_get t token with
           | Undefined => (_addToken token t).2
           | _ => t
           end)
  end.

(** [Object.keys(this.specialTokens).length] *)
Definition reserved_count (t : Tokenizer) : Z :=
  Z.of_nat (length (special_entries (specialTokens t))).

Definition train (t : Tokenizer) (text : string) (maxVocab : option Z)
    (append : bool) : Tokenizer :=
  let t := if append then t else resetVocab t in
  match text with
  | EmptyString => t
  | _ =>
      let freq := count_tokens (tokens_of t text) in
      train_loop maxVocab (reserved_count t) (sorted_entries freq).*1 t
  end.

(** *** encode *)

(** The body of the loop over the tokens: the ids pushed and the tokenizer
    afterwards. *)
Fixpoint encode_loop (tokens : list string) (t : Tokenizer)
  : list jsval * Tokenizer :=
  match tokens with
  | [] => ([], t)
  | tok :: rest =>
      let '(id, t') :=
        match tokenToId_get t tok with
        | Undefined =>
            if learnOnEncode t then _addToken tok t
            else (specialTokenIds_get t "UNK", t)
        | v => (v, t)
        end in
      let '(ids, t'') := encode_loop rest t' in
      (id :: ids, t'')
  end.

Definition encode (t : Tokenizer) (text : string) (addBOS addEOS : bool)
  : list jsval * Tokenizer :=
  match text with
  | EmptyString => ([], t)
  | _ =>
      let '(ids, t') := encode_loop (tokens_of t text) t in
      ((if addBOS then [specialTokenIds_get t "BOS"] else [])
       ++ ids
       ++ (if addEOS then [specialTokenIds_get t' "EOS"] else []),
       t')
  end.

(** *** decode *)

(** [ids.map((id) => this.idToToken[id] !== undefined ? this.idToToken[id]
    : this.specialTokens.UNK)] *)
Definition decode_tokens (t : Tokenizer) (ids : list Z) : list string :=
  (λ id : Z, default (UNK (specialTokens t)) (idToToken t !! pretty id)) <$> ids.

Definition decode (t : Tokenizer) (ids : list Z) (skipSpecial : bool) : string :=
  let tokens := decode_tokens t ids in
  if skipSpecial then
    despace (join_sp (filter (λ tok, tok ∉ special_values (specialTokens t)) tokens))
  else despace (join_sp tokens).

(** *** getVocab and load *)

(** The three copies [getVocab] returns. *)
Record Snapshot := {
  snap_tokenToId : gmap string Z;
  snap_idToToken : gmap string string;
  snap_specialTokenIds : gmap string jsval
}.

Definition getVocab (t : Tokenizer) : Snapshot :=
  {| snap_tokenToId := tokenToId t;
     snap_idToToken := idToToken t;
     snap_specialTokenIds := specialTokenIds t |}.

(** How a call ends.  [Unrepresented] marks the calls of [load] that return
    normally but leave in a field a value these records do not hold: an
    array, a string, a number other than an exact integer, or a table with
    such members. *)
Inductive completion :=
| Normal
| Throw (message : string)
| Unrepresented.

(** [parsed[name]]: [None] is the [TypeError] of reading a property of
    [null]; [Some None] is [undefined]. *)
Definition get_property (parsed : Json.value) (name : string)
  : option (option Json.value) :=
  match parsed with
  | Json.Null => None
  | Json.Obj l => Some (Json.own l (Json.widen name))
  | _ => Some None
  end.

(** [ToBoolean]; [None] for a number whose text has a fraction or an
    exponent. *)
Definition truthy (v : option Json.value) : option bool :=
  match v with
  | None | Some Json.Null => Some false
  | Some (Json.Bool b) => Some b
  | Some (Json.Int z) => Some (negb (z =? 0))
  | Some (Json.Real _) => None
  | Some (Json.Str s) => Some (match s with [] => false | _ => true end)
  | Some (Json.Arr _) | Some (Json.Obj _) => Some true
  end.

(** The integers that a JSON text denotes exactly. *)
Definition exact_integer (v : Json.value) : option Z :=
  match v with
  | Json.Int z =>
      if (- 9007199254740992 <=? z) && (z <=? 9007199254740992)
      then Some z else None
  | _ => None
  end.

Definition narrow_string (v : Json.value) : option string :=
  match v with
  | Json.Str u => Json.narrow u
  | _ => None
  end.

(** The members of a parsed object as a map, later members first replacing
    earlier ones; [None] when a key or a member is not represented. *)
Definition members_map {V} (member : Json.value → option V)
    (l : list (list N * Json.value)) : option (gmap string V) :=
  foldl (λ acc e,
           m ← acc; k ← Json.narrow e.1; x ← member e.2; Some (<[k := x]> m))
        (Some ∅) l.

(** [v || Object.create(null)] as a table: whether it inherits from
    [Object.prototype], and its own members. *)
Definition or_empty {V} (member : Json.value → option V)
    (v : option Json.value) : option (bool * gmap string V) :=
  match truthy v with
  | Some false => Some (false, ∅)
  | Some true =>
      match v with
      | Some (Json.Obj l) => (λ m, (true, m)) <$> members_map member l
      | _ => None
      end
  | None => None
  end.

Definition invalid_json : string := "Invalid JSON for vocab".

(** [load(jsonStr = "")]; [None] is an absent argument.  The fields are
    assigned one after the other inside the [try], and the tokenizer
    returned is the one the call leaves behind, also when it throws. *)
Definition load (t : Tokenizer) (jsonStr : option string)
  : completion * Tokenizer :=
  match jsonStr with
  | None | Some EmptyString => (Normal, t)
  | Some s =>
      match Json.parse s with
      | None => (Throw invalid_json, t)
      | Some parsed =>
          match get_property parsed "tokenToId" with
          | None => (Throw invalid_json, t)
          | Some v1 =>
          match or_empty exact_integer v1 with
          | None => (Unrepresented, t)
          | Some (proto, t2i) =>
          let t1 := with_vocab t proto t2i (idToToken t) (vocabSize t)
                      (specialTokenIds t) in
          match get_property parsed "idToToken" with
          | None => (Throw invalid_json, t1)
          | Some v2 =>
          match or_empty narrow_string v2 with
          | None => (Unrepresented, t1)
          | Some (_, i2t) =>
          let t2 := with_vocab t1 proto t2i i2t (vocabSize t1)
                      (specialTokenIds t1) in
          match get_property parsed "specialTokenIds" with
          | None => (Throw invalid_json, t2)
          | Some v3 =>
          match or_empty (λ v, Num <$> exact_integer v) v3 with
          | None => (Unrepresented, t2)
          | Some (_, sp) =>
              (Normal, with_vocab t2 proto t2i i2t (Z.of_nat (size i2t)) sp)
          end end end end end end
      end
  end.

(** ** Notions used in the statements and in their proofs *)

(** The call ended by throwing. *)
Definition is_throw (c : completion) : Prop :=
  match c with Throw _ => True | _ => False end.

(** [BOS] and [EOS], when asked for, around no token at all. *)
Definition markers (t : Tokenizer) (addBOS addEOS : bool) : list jsval :=
  (if addBOS then [specialTokenIds_get t "BOS"] else [])
  ++ (if addEOS then [specialTokenIds_get t "EOS"] else []).

(** Each pair of [tokenToId] is found back in [idToToken], and the two maps
    have [vocabSize] entries each. *)
Definition bijective (t : Tokenizer) : Prop :=
  (∀ tok id, tokenToId t !! tok = Some id → idToToken t !! pretty id = Some tok)
  ∧ size (tokenToId t) = size (idToToken t)
  ∧ Z.of_nat (size (idToToken t)) = vocabSize t.

(** The invariant behind it: the ids in use are exactly [0 .. vocabSize - 1],
    and each map is the converse of the other. *)
Record dense (t : Tokenizer) : Prop := {
  dense_forth : ∀ tok id, tokenToId t !! tok = Some id →
                0 ≤ id < vocabSize t ∧ idToToken t !! pretty id = Some tok;
  dense_back : ∀ k tok, idToToken t !! k = Some tok →
               ∃ id, k = pretty id ∧ tokenToId t !! tok = Some id;
  dense_size_tokens : Z.of_nat (size (tokenToId t)) = vocabSize t;
  dense_size_ids : Z.of_nat (size (idToToken t)) = vocabSize t
}.

(** The tokenizers that calls of the methods lead to.  [decode], [getVocab]
    and [save] are functions of the tokenizer and leave it as it is; a call
    of [load] that throws does the same.  [imports] tells whether [load] may
    be among the calls. *)
Inductive reachable (imports : bool) : Tokenizer → Prop :=
| reach_new lc sp learn :
    reachable imports (new_Tokenizer lc sp learn)
| reach_reset t :
    reachable imports t → reachable imports (resetVocab t)
| reach_train t text maxVocab append :
    reachable imports t → reachable imports (train t text maxVocab append)
| reach_encode t text addBOS addEOS :
    reachable imports t → reachable imports (encode t text addBOS addEOS).2
| reach_load t jsonStr t' :
    imports = true → reachable imports t →
    load t jsonStr = (Normal, t') → reachable imports t'.

(** A snapshot in which [a] has the id 7 and no id has a token:
    [{"tokenToId":{"a":7}}]. *)
Definition orphan_snapshot : string :=
  "{" +:+ quoted "tokenToId" +:+ ":{" +:+ quoted "a" +:+ ":7}}".

(** The entries of [tokenToId] whose token is none of the special strings. *)
Definition non_special (t : Tokenizer) : nat :=
  size (dom (tokenToId t)
        ∖ (list_to_set (special_values (specialTokens t)) : gset string)).

(** The text [save()] returns for a new tokenizer with the default options:
    [{"tokenToId":{"[PAD]":0,"[UNK]":1,"[BOS]":2,"[EOS]":3},
      "idToToken":{"0":"[PAD]","1":"[UNK]","2":"[BOS]","3":"[EOS]"},
      "specialTokenIds":{"PAD":0,"UNK":1,"BOS":2,"EOS":3}}] *)
Definition saved_default_vocab : string :=
  let member k v := quoted k +:+ ":" +:+ v in
  "{" +:+ member "tokenToId"
            ("{" +:+ member "[PAD]" "0" +:+ "," +:+ member "[UNK]" "1" +:+ ","
             +:+ member "[BOS]" "2" +:+ "," +:+ member "[EOS]" "3" +:+ "}")
  +:+ "," +:+ member "idToToken"
            ("{" +:+ member "0" (quoted "[PAD]") +:+ ","
             +:+ member "1" (quoted "[UNK]") +:+ ","
             +:+ member "2" (quoted "[BOS]") +:+ ","
             +:+ member "3" (quoted "[EOS]") +:+ "}")
  +:+ "," +:+ member "specialTokenIds"
            ("{" +:+ member "PAD" "0" +:+ "," +:+ member "UNK" "1" +:+ ","
             +:+ member "BOS" "2" +:+ "," +:+ member "EOS" "3" +:+ "}")
  +:+ "}".

(** The comparator [(a, b) => key(b) - key(a)] of a descending sort. *)
Definition descending {A} (key : A → Z) (a b : A) : Z := key b - key a.

(** How often a token occurs among the tokens of a text. *)
Definition occurrences (tok : string) (tokens : list string) : Z :=
  Z.of_nat (length (filter (tok =.) tokens)).

(** The tokens to which the loop of [train] gives an id, in that order. *)
Fixpoint loop_added (maxVocab : option Z) (reserved : Z)
    (candidates : list string) (t : Tokenizer) : list string :=
  match candidates with
  | [] => []
  | token :: rest =>
      if bound_reached maxVocab (vocabSize t - reserved) then []
      else
        match tokenToId_get t token with
        | Undefined =>
            token :: loop_added maxVocab reserved rest (_addToken token t).2
        | _ => loop_added maxVocab reserved rest t
        end
  end.

(** The tokens that have the ids from [vocabSize t0] up to [vocabSize t']
    in [t'], in the order of these ids. *)
Definition added_between (t0 t' : Tokenizer) : list string :=
  omap (λ i : nat, idToToken t' !! pretty (vocabSize t0 + Z.of_nat i))
       (seq 0 (Z.to_nat (vocabSize t' - vocabSize t0))).

(** How many more tokens the bound of [train] lets in when [nonSpecial]
    tokens besides the special ones are there; [None] when there is no
    bound ([maxVocab] is [null] or [0]). *)
Definition allowance (maxVocab : option Z) (nonSpecial : Z) : option nat :=
  match maxVocab with
  | Some m => if m =? 0 then None else Some (Z.to_nat (m - nonSpecial))
  | None => None
  end.

(** The first [k] elements of a list, all of them for [None]. *)
Definition within {A} (k : option nat) (l : list A) : list A :=
  match k with
  | Some k => take k l
  | None => l
  end.

(** The candidates for which the read of [tokenToId] is [undefined]. *)
Definition fresh_candidates (t : Tokenizer) (candidates : list string)
  : list string :=
  filter (λ tok, tokenToId_get t tok = Undefined) candidates.

(** ** Further notions *)

(** Two tokenizers were built with the same options. *)
Definition same_options (t1 t2 : Tokenizer) : Prop :=
  lowercase t1 = lowercase t2
  ∧ learnOnEncode t1 = learnOnEncode t2
  ∧ specialTokens t1 = specialTokens t2.

(** Each name of [specialTokenIds] holds the id that [tokenToId] gives to
    the string of that name, one of the first four. *)
Definition registered (t : Tokenizer) : Prop :=
  ∀ e, e ∈ special_entries (specialTokens t) →
       ∃ id, specialTokenIds t !! e.1 = Some (Num id)
             ∧ tokenToId t !! e.2 = Some id
             ∧ 0 ≤ id < 4.

(** Every id below [vocabSize] has a token. *)
Definition gapless (t : Tokenizer) : Prop :=
  ∀ id, 0 ≤ id < vocabSize t → is_Some (idToToken t !! pretty id).

(** The state that [resetVocab] builds up: the ids lie below [vocabSize],
    which a round of its loop raises by one at most, and the names done so
    far are recorded. *)
Definition reserving (s : SpecialTokens) (n : Z) (t : Tokenizer) : Prop :=
  dense t ∧ tokenToId_proto t = false ∧ specialTokens t = s
  ∧ vocabSize t ≤ n
  ∧ ∀ e, is_Some (specialTokenIds t !! e.1) → e ∈ special_entries s →
         ∃ id, specialTokenIds t !! e.1 = Some (Num id)
               ∧ tokenToId t !! e.2 = Some id ∧ 0 ≤ id < n.

(** The tokens of [l] that are not in [seen], each at its first occurrence
    only. *)
Fixpoint unseen_in_order (seen : gset string) (l : list string) : list string :=
  match l with
  | [] => []
  | x :: l' =>
      if decide (x ∈ seen) then unseen_in_order seen l'
      else x :: unseen_in_order ({[x]} ∪ seen) l'
  end.

(** A sequence between the two markers that were asked for. *)
Definition framed {A} (addBOS addEOS : bool) (bos eos : A) (l : list A)
  : list A :=
  (if addBOS then [bos] else []) ++ l ++ (if addEOS then [eos] else []).

(** A string made of [[\w']] characters only. *)
Fixpoint all_run (s : string) : bool :=
  match s with
  | EmptyString => true
  | String c s' => is_run c && all_run s'
  end.

(** A string without its white-space characters. *)
Fixpoint strip_spaces (s : string) : string :=
  match s with
  | EmptyString => EmptyString
  | String c s' =>
      if is_space c then strip_spaces s' else String c (strip_spaces s')
  end.

(** The strings of a list, one after the other. *)
Definition concat_strings (l : list string) : string :=
  foldr String.append "" l.

(** What a match of the token pattern looks like: a non-empty run of
    [[\w']] characters, or one character that is neither white space nor in
    [[\w']]. *)
Definition token_shape (tok : string) : Prop :=
  (tok ≠ "" ∧ all_run tok = true)
  ∨ ∃ c, tok = String c "" ∧ is_run c = false ∧ is_space c = false.

(** ** The handlers of the page

    The functions of [TokenizerApp] that parse and show ids.  A handler is
    given as a function of the tokenizer and of the fields it reads; it
    yields the alert it raises or the values it passes to the setters of
    the fields it writes. *)

(** [s.match(/\d+/g)]: the maximal runs of decimal digits, from left to
    right. *)
Fixpoint scan_digits (run : string) (s : string) : list string :=
  match s with
  | EmptyString => flush run []
  | String c s' =>
      if between 48 57 c then scan_digits (run +:+ String c "") s'
      else flush run (scan_digits "" s')
  end.

(** [Number(n)] for a run of digits; [None] for a value above 2^53, which
    [Number] rounds. *)
Definition Number_of_digits (n : string) : option Z :=
  v ← digits_value 0 n;
  if (v <=? 9007199254740992)%N then Some (Z.of_N v) else None.

(** [parseIdsFromString(s)] *)
Definition parseIdsFromString (s : string) : option (list Z) :=
  match s with
  | EmptyString => Some []
  | _ => mapM Number_of_digits (scan_digits "" s)
  end.

(** [Array.prototype.join(",")] on an array of strings. *)
Fixpoint join_comma (l : list string) : string :=
  match l with
  | [] => ""
  | [x] => x
  | x :: l' => x +:+ "," +:+ join_comma l'
  end.

(** How [join] shows one element of [encodedIds]; [None] for an inherited
    member, whose text belongs to the host. *)
Definition show_id (v : jsval) : option string :=
  match v with
  | Undefined => Some ""
  | Num z => Some (pretty z)
  | Inherited _ => None
  end.

(** The button [Use last encoded]: [setDecodeInput(encodedIds.join(","))]. *)
Definition use_last_encoded (encodedIds : list jsval) : option string :=
  join_comma <$> mapM show_id encodedIds.

(** What a handler does in the end. *)
Inductive page_result (A : Type) :=
| Alert (message : string)
| Shown (a : A).
Global Arguments Alert {A} message.
Global Arguments Shown {A} a.

Definition no_ids_alert : string :=
  "Please enter at least one token ID to decode (numbers like 0,1,2).".

(** [handleDecode], on a tokenizer that is there: the alert, or the text
    passed to [setDecodedText]. *)
Definition handleDecode (t : Tokenizer) (decodeInput : string)
  : option (page_result string) :=
  ids ← parseIdsFromString decodeInput;
  Some (match ids with
        | [] => Alert no_ids_alert
        | _ => Shown (decode t ids true)
        end).

(** [String.prototype.trim] *)
Fixpoint trim_start (s : string) : string :=
  match s with
  | EmptyString => EmptyString
  | String c s' => if is_space c then trim_start s' else s
  end.

Fixpoint trim_end (s : string) : string :=
  match s with
  | EmptyString => EmptyString
  | String c s' =>
      match trim_end s' with
      | EmptyString => if is_space c then EmptyString else String c EmptyString
      | r => String c r
      end
  end.

Definition trim (s : string) : string := trim_end (trim_start s).

(** [tokenizerRef.current.idToToken[id] || "[UNK]"] *)
Definition display_token (t : Tokenizer) (id : jsval) : option string :=
  let shown key :=
    match idToToken t !! key with
    | Some EmptyString | None => "[UNK]"
    | Some tok => tok
    end in
  match id with
  | Num z => Some (shown (pretty z))
  | Undefined => Some (shown "undefined")
  | Inherited _ => None
  end.

Definition no_text_alert : string := "Please enter text to encode.".

(** [handleEncode], on a tokenizer that is there: the alert, or the values
    passed to [setEncodedIds], [setEncodedTokens] and [setVocab]; and the
    tokenizer afterwards. *)
Definition handleEncode (t : Tokenizer) (encodeText : string)
    (addBOS addEOS : bool)
  : option (page_result (list jsval * list string * Snapshot)) * Tokenizer :=
  match encodeText, trim encodeText with
  | EmptyString, _ | _, EmptyString => (Some (Alert no_text_alert), t)
  | _, _ =>
      let '(ids, t') := encode t encodeText addBOS addEOS in
      ((λ tokens, Shown (ids, tokens, getVocab t'))
       <$> mapM (display_token t') ids, t')
  end.

(** * Properties *)

(** ** The models of the library functions on samples *)

Example scan_sample :
  match_tokens "don't stop, ok_1!" = ["don't"; "stop"; ","; "ok_1"; "!"].
Proof. reflexivity. Qed.

Example despace_sample :
  despace (join_sp ["hello"; ","; "world"; "!"]) = "hello, world!".
Proof. reflexivity. Qed.

Example entries_sample :
  entries (foldl (λ f t, bump t f) [] ["b"; "10"; "a"; "9"; "b"; "007"])
  = [("9", 1); ("10", 1); ("b", 2); ("a", 1); ("007", 1)].
Proof. vm_compute. reflexivity. Qed.

Example parse_sample :
  Json.parse ("{ " +:+ quoted "aA" +:+ ": [1, -20, 1.5e3, true, null], "
              +:+ quoted "b" +:+ ":{} }")
  = Some (Json.Obj
            [([97; 65]%N,
              Json.Arr [Json.Int 1; Json.Int (-20); Json.Real "1.5e3";
                        Json.Bool true; Json.Null]);
             ([98]%N, Json.Obj [])]).
Proof. vm_compute. reflexivity. Qed.

Example parse_rejects :
  Json.parse "" = None ∧ Json.parse "{" = None ∧ Json.parse "01" = None
  ∧ Json.parse "[1,]" = None ∧ Json.parse "nul" = None
  ∧ Json.parse "{a:1}" = None ∧ Json.parse "1 2" = None.
Proof. vm_compute. repeat split. Qed.

(** ** Characters, tokens and de-spacing *)

Lemma is_space_not_run (c : ascii) : is_space c = true → is_run c = false.
Proof. destruct c as [[] [] [] [] [] [] [] []]; vm_compute; congruence. Qed.

Lemma lower_char_space (c : ascii) : is_space c = true → lower_char c = c.
Proof. destruct c as [[] [] [] [] [] [] [] []]; vm_compute; congruence. Qed.

Lemma all_space_toLowerCase (s : string) :
  all_space s = true → toLowerCase s = s.
Proof.
  induction s as [|c s IH]; simpl; [done|].
  intros [Hc Hs]%andb_true_iff. by rewrite lower_char_space, IH.
Qed.

Lemma append_char_ne_empty (run : string) (c : ascii) :
  run +:+ String c "" ≠ "".
Proof. by destruct run. Qed.

Lemma scan_not_nil (run s : string) : run ≠ "" → scan run s ≠ [].
Proof.
  revert run. induction s as [|c s IH]; intros run Hrun; simpl.
  - unfold flush. by destruct (decide (run = "")).
  - destruct (is_run c).
    + apply IH, append_char_ne_empty.
    + unfold flush. by destruct (decide (run = "")).
Qed.

(** The token pattern has no match exactly in the texts made of white space
    only. *)
Lemma match_tokens_nil_iff (s : string) :
  match_tokens s = [] ↔ all_space s = true.
Proof.
  unfold match_tokens. induction s as [|c s IH]; simpl; [done|].
  destruct (is_run c) eqn:Hrun.
  - split.
    + intros H. by apply scan_not_nil in H.
    + intros [Hc _]%andb_true_iff. apply is_space_not_run in Hc. congruence.
  - unfold flush; simpl. destruct (is_space c); simpl; [done|]. by split.
Qed.

Lemma tokens_of_all_space (t : Tokenizer) (text : string) :
  all_space text = true → tokens_of t text = [].
Proof.
  intros H. unfold tokens_of. apply match_tokens_nil_iff.
  destruct (lowercase t); [by rewrite all_space_toLowerCase|done].
Qed.

(** ** load *)

(** C10. [load] called with the empty string, or with no argument at all,
    returns normally without raising anything and leaves the tokenizer as it
    was: [tokenToId], [idToToken], [specialTokenIds] and [vocabSize] are
    unchanged. *)
Theorem load_empty_is_noop (t : Tokenizer) :
  load t None = (Normal, t) ∧ load t (Some "") = (Normal, t).
Proof. split; reflexivity. Qed.

(** C1, as the code has it.  [load] throws exactly on a non-empty text that
    [JSON.parse] rejects or that denotes [null]; the error is then
    [Invalid JSON for vocab], and the tokenizer, hence the snapshot of
    [getVocab], is the one from before the call.  Nothing is said here of
    a text that parses to something else: its shape is not examined. *)
Theorem load_throw_atomic (t : Tokenizer) (jsonStr : option string) :
  (is_throw (load t jsonStr).1 ↔
     ∃ s, jsonStr = Some s ∧ s ≠ ""
          ∧ (Json.parse s = None ∨ Json.parse s = Some Json.Null))
  ∧ (is_throw (load t jsonStr).1 →
     (load t jsonStr).1 = Throw invalid_json
     ∧ (load t jsonStr).2 = t
     ∧ getVocab (load t jsonStr).2 = getVocab t).
Proof.
  assert (Hshape : ∀ parsed, parsed ≠ Json.Null → ∀ name,
             get_property parsed name ≠ None).
  { intros [] ? ?; simpl; congruence. }
  destruct jsonStr as [[|c s]|]; simpl.
  - split; [|done]. split; [done|]. by intros (s & [= <-] & ? & _).
  - destruct (Json.parse (String c s)) as [parsed|] eqn:Hparse.
    + assert (parsed = Json.Null ∨ parsed ≠ Json.Null) as [->|Hnn]
        by (destruct parsed; auto; right; congruence); simpl.
      { split; [|done]. split; [|done]. intros _. exists (String c s). eauto. }
      pose proof (Hshape parsed Hnn "tokenToId") as H1.
      pose proof (Hshape parsed Hnn "idToToken") as H2.
      pose proof (Hshape parsed Hnn "specialTokenIds") as H3.
      assert (Hno : ¬ is_throw (load t (Some (String c s))).1).
      { simpl. rewrite Hparse.
        destruct (get_property parsed "tokenToId") as [v1|]; [|done].
        destruct (or_empty exact_integer v1) as [[p1 m1]|]; [|by intros []].
        destruct (get_property parsed "idToToken") as [v2|]; [|done].
        destruct (or_empty narrow_string v2) as [[p2 m2]|]; [|by intros []].
        destruct (get_property parsed "specialTokenIds") as [v3|]; [|done].
        by destruct (or_empty _ v3) as [[p3 m3]|]; intros []. }
      simpl in Hno. rewrite Hparse in Hno.
      split; [|done]. split; [done|].
      intros (s' & [= <-] & _ & [Hp|Hp]); congruence.
    + simpl. split; [|done]. split; [|done].
      intros _. exists (String c s). eauto.
  - split; [|done]. split; [done|]. by intros (s & [=] & _).
Qed.

Lemma load_throw_atomic_witness :
  is_throw (load default_Tokenizer (Some "{oops")).1
  ∧ (load default_Tokenizer (Some "{oops")).1 = Throw invalid_json
  ∧ (load default_Tokenizer (Some "{oops")).2 = default_Tokenizer
  ∧ getVocab (load default_Tokenizer (Some "{oops")).2
    = getVocab default_Tokenizer.
Proof.
  assert (H : is_throw (load default_Tokenizer (Some "{oops")).1)
    by (vm_compute; exact I).
  split; [exact H|].
  exact (proj2 (load_throw_atomic default_Tokenizer (Some "{oops")) H).
Defined.

(** A text that parses to anything but [null] and has none of the three
    fields (an array, a number, an object with other members) is accepted,
    and leaves the three maps empty. *)
Lemma load_without_fields (t : Tokenizer) (s : string) (parsed : Json.value) :
  s ≠ "" → Json.parse s = Some parsed →
  get_property parsed "tokenToId" = Some None →
  get_property parsed "idToToken" = Some None →
  get_property parsed "specialTokenIds" = Some None →
  load t (Some s) = (Normal, with_vocab t false ∅ ∅ 0 ∅).
Proof.
  intros Hs Hparse H1 H2 H3. destruct s as [|c s]; [done|].
  unfold load. by rewrite Hparse, H1, H2, H3.
Qed.

(** C1 does not hold of a text that is valid JSON of the wrong shape: [{}]
    has none of the three fields, yet [load] returns normally and empties
    the vocabulary. *)
Lemma load_wrong_shape_accepted :
  (load default_Tokenizer (Some "{}")).1 = Normal
  ∧ getVocab (load default_Tokenizer (Some "{}")).2
    ≠ getVocab default_Tokenizer
  ∧ tokenToId (load default_Tokenizer (Some "{}")).2 = ∅
  ∧ vocabSize (load default_Tokenizer (Some "{}")).2 = 0.
Proof.
  split; [reflexivity|]. split; [|split; reflexivity].
  intros H. apply (f_equal (λ s, snap_tokenToId s !! "[PAD]")) in H.
  vm_compute in H. discriminate.
Qed.

(** ** encode on texts without tokens *)

(** C3, as the code has it.  For the empty string [encode] returns the empty
    sequence whatever the flags; for any other text without tokens (white
    space only) it returns exactly the markers that were asked for, hence
    the empty sequence when neither flag is set.  The tokenizer is left as
    it was. *)
Theorem encode_without_tokens (t : Tokenizer) (text : string)
    (addBOS addEOS : bool) :
  all_space text = true →
  encode t "" addBOS addEOS = ([], t)
  ∧ (text ≠ "" → encode t text addBOS addEOS = (markers t addBOS addEOS, t))
  ∧ encode t text false false = ([], t).
Proof.
  intros Hsp. pose proof (tokens_of_all_space t text Hsp) as Htok.
  split; [done|].
  destruct text as [|c s]; [done|]. unfold encode. rewrite Htok. simpl.
  split; [|done]. intros _. unfold markers. by destruct addBOS, addEOS.
Qed.

Lemma encode_without_tokens_witness :
  all_space "  " = true
  ∧ encode default_Tokenizer "  " true true
    = ([Num 2; Num 3], default_Tokenizer).
Proof.
  split; [reflexivity|].
  exact (proj1 (proj2 (encode_without_tokens default_Tokenizer "  " true true
                         eq_refl)) ltac:(discriminate)).
Defined.

(** C3 does not hold of a text of white space when a marker is asked for:
    the text has no token, and [BOS] is emitted all the same. *)
Lemma encode_blank_keeps_markers :
  tokens_of default_Tokenizer " " = []
  ∧ (encode default_Tokenizer " " true false).1 = [Num 2]
  ∧ (encode default_Tokenizer " " true false).1 ≠ [].
Proof. split; [reflexivity|]. split; [reflexivity|]. vm_compute. discriminate. Qed.

(** ** The example of the README *)

(** C5. A fresh tokenizer with the default options reserves the ids 0 to 3
    for the special tokens; [encode("Hello world", {addBOS, addEOS})] then
    gives [2, 4, 5, 3], having given 4 to [hello] and 5 to [world], and
    [decode([2, 4, 5, 3], {skipSpecial: true})] gives back [hello world]. *)
Theorem hello_world_round_trip :
  let t := default_Tokenizer in
  let r := encode t "Hello world" true true in
  (tokenToId t !! "[PAD]" = Some 0 ∧ tokenToId t !! "[UNK]" = Some 1
   ∧ tokenToId t !! "[BOS]" = Some 2 ∧ tokenToId t !! "[EOS]" = Some 3
   ∧ vocabSize t = 4)
  ∧ r.1 = [Num 2; Num 4; Num 5; Num 3]
  ∧ (tokenToId r.2 !! "hello" = Some 4 ∧ tokenToId r.2 !! "world" = Some 5
     ∧ vocabSize r.2 = 6)
  ∧ decode r.2 [2; 4; 5; 3] true = "hello world".
Proof. cbv zeta. repeat split; reflexivity. Qed.

(** ** decode on ids without a token *)




(** ** _addToken *)

Lemma tokenToId_get_own (t : Tokenizer) (k : string) (id : Z) :
  tokenToId t !! k = Some id → tokenToId_get t k = Num id.
Proof. unfold tokenToId_get. by intros ->. Qed.

Lemma tokenToId_get_undefined (t : Tokenizer) (k : string) :
  tokenToId_get t k = Undefined → tokenToId t !! k = None.
Proof.
  unfold tokenToId_get. destruct (tokenToId t !! k); [done|].
  by destruct (_ && _).
Qed.

Lemma tokenToId_get_null_proto (t : Tokenizer) (k : string) :
  tokenToId_proto t = false →
  tokenToId t !! k = None → tokenToId_get t k = Undefined.
Proof. unfold tokenToId_get. by intros -> ->. Qed.

(** The two ways [_addToken] goes. *)
Lemma addToken_cases (token : string) (t : Tokenizer) :
  (tokenToId_get t token = Undefined
   ∧ tokenToId t !! token = None
   ∧ _addToken token t
     = (Num (vocabSize t),
        with_vocab t (tokenToId_proto t)
          (<[token := vocabSize t]> (tokenToId t))
          (<[pretty (vocabSize t) := token]> (idToToken t))
          (vocabSize t + 1) (specialTokenIds t)))
  ∨ (tokenToId_get t token ≠ Undefined
     ∧ _addToken token t = (tokenToId_get t token, t)).
Proof.
  unfold _addToken.
  destruct (tokenToId_get t token) eqn:Hget; [left|right..]; try done.
  split; [done|]. split; [|done]. by apply tokenToId_get_undefined.
Qed.

Lemma addToken_keeps (token : string) (t : Tokenizer) (tok : string) (id : Z) :
  tokenToId t !! tok = Some id →
  tokenToId (_addToken token t).2 !! tok = Some id.
Proof.
  intros H. destruct (addToken_cases token t) as [(_ & Hnone & ->)|[_ ->]];
    simpl; [|done].
  rewrite lookup_insert_ne; [done|]. congruence.
Qed.

Lemma train_loop_keeps maxVocab reserved (l : list string) (t : Tokenizer)
    (tok : string) (id : Z) :
  tokenToId t !! tok = Some id →
  tokenToId (train_loop maxVocab reserved l t) !! tok = Some id.
Proof.
  revert t. induction l as [|x l IH]; intros t H; simpl; [done|].
  destruct (bound_reached _ _); [done|]. apply IH.
  destruct (tokenToId_get t x); [|done..]. by apply addToken_keeps.
Qed.

Lemma encode_loop_keeps (l : list string) (t : Tokenizer) (tok : string) (id : Z) :
  tokenToId t !! tok = Some id →
  tokenToId (encode_loop l t).2 !! tok = Some id.
Proof.
  revert t. induction l as [|x l IH]; intros t H; simpl; [done|].
  set (step := match tokenToId_get t x with
               | Undefined => if learnOnEncode t then _addToken x t
                              else (specialTokenIds_get t "UNK", t)
               | v => (v, t) end).
  assert (tokenToId step.2 !! tok = Some id) as Hstep.
  { subst step. destruct (tokenToId_get t x); [|done..].
    destruct (learnOnEncode t); [|done]. by apply addToken_keeps. }
  destruct step as [v t']. specialize (IH t' Hstep).
  by destruct (encode_loop l t').
Qed.

(** C9. [train] with [append = true] only adds: a pair [(token, id)] of
    [tokenToId] is still there, with the same id, after the call, for every
    text and every bound.  (The same holds of [encode], the other method
    that adds tokens without resetting.) *)
Theorem train_append_keeps_ids (t : Tokenizer) (text : string)
    (maxVocab : option Z) (tok : string) (id : Z) :
  tokenToId t !! tok = Some id →
  tokenToId (train t text maxVocab true) !! tok = Some id
  ∧ snap_tokenToId (getVocab (train t text maxVocab true)) !! tok = Some id
  ∧ ∀ text' addBOS addEOS,
      tokenToId (encode t text' addBOS addEOS).2 !! tok = Some id.
Proof.
  intros H.
  assert (tokenToId (train t text maxVocab true) !! tok = Some id) as Htrain.
  { unfold train. destruct text; [done|]. by apply train_loop_keeps. }
  split; [done|]. split; [done|].
  intros text' addBOS addEOS. unfold encode. destruct text'; [done|].
  pose proof (encode_loop_keeps (tokens_of t (String a text')) t tok id H) as He.
  by destruct (encode_loop _ t).
Qed.

Lemma train_append_keeps_ids_witness :
  tokenToId default_Tokenizer !! "[BOS]" = Some 2
  ∧ tokenToId (train default_Tokenizer "to be or not to be" (Some 3) true)
      !! "[BOS]" = Some 2.
Proof.
  split; [reflexivity|].
  exact (proj1 (train_append_keeps_ids default_Tokenizer "to be or not to be"
                  (Some 3) "[BOS]" 2 eq_refl)).
Defined.

(** ** The two maps are inverse of each other *)

Lemma dense_bijective (t : Tokenizer) : dense t → bijective t.
Proof.
  intros [H1 H2 H3 H4]. split; [|split; [lia|done]].
  intros tok id H. by apply H1.
Qed.

Lemma dense_empty (t : Tokenizer) proto sp : dense (with_vocab t proto ∅ ∅ 0 sp).
Proof. split; simpl; try done; intros ? ?; by rewrite lookup_empty. Qed.

Lemma dense_specialTokenIds (t : Tokenizer) sp :
  dense t →
  dense (with_vocab t (tokenToId_proto t) (tokenToId t) (idToToken t)
           (vocabSize t) sp).
Proof. by intros [H1 H2 H3 H4]. Qed.

Lemma dense_addToken (token : string) (t : Tokenizer) :
  dense t → dense (_addToken token t).2.
Proof.
  intros [H1 H2 H3 H4].
  destruct (addToken_cases token t) as [(_ & Hnone & ->)|[_ ->]]; [|done].
  assert (idToToken t !! pretty (vocabSize t) = None) as Hfresh.
  { destruct (idToToken t !! pretty (vocabSize t)) as [tok|] eqn:E; [|done].
    destruct (H2 _ _ E) as (id & Hid%(inj pretty) & Htok). subst id.
    apply H1 in Htok. lia. }
  split; simpl.
  - intros tok id. rewrite lookup_insert. case_decide as Heq.
    + intros [= <-]. subst tok. split; [lia|]. by rewrite lookup_insert_eq.
    + intros Htok. destruct (H1 _ _ Htok) as [Hrange Hback].
      split; [lia|]. rewrite lookup_insert_ne; [done|].
      intros Hk%(inj pretty). lia.
  - intros k tok. rewrite lookup_insert. case_decide as Heq.
    + intros [= <-]. exists (vocabSize t). split; [done|].
      by rewrite lookup_insert_eq.
    + intros Hk. destruct (H2 _ _ Hk) as (id & -> & Htok).
      exists id. split; [done|]. rewrite lookup_insert_ne; [done|]. congruence.
  - rewrite map_size_insert_None; [lia|done].
  - rewrite map_size_insert_None; [lia|done].
Qed.

Lemma dense_reserve (t : Tokenizer) (e : string * string) :
  dense t → dense (reserve t e).
Proof.
  intros H. unfold reserve.
  pose proof (dense_addToken e.2 t H) as H'.
  destruct (_addToken e.2 t) as [id t']. by apply dense_specialTokenIds.
Qed.

Lemma dense_resetVocab (t : Tokenizer) : dense (resetVocab t).
Proof.
  unfold resetVocab.
  generalize (dense_empty t false ∅).
  generalize (with_vocab t false ∅ ∅ 0 ∅).
  induction (special_entries (specialTokens t)) as [|e l IH]; intros t0 H;
    simpl; [done|].
  by apply IH, dense_reserve.
Qed.

Lemma dense_train_loop maxVocab reserved (l : list string) (t : Tokenizer) :
  dense t → dense (train_loop maxVocab reserved l t).
Proof.
  revert t. induction l as [|x l IH]; intros t H; simpl; [done|].
  destruct (bound_reached _ _); [done|]. apply IH.
  destruct (tokenToId_get t x); [|done..]. by apply dense_addToken.
Qed.

Lemma dense_train (t : Tokenizer) text maxVocab append :
  dense t → dense (train t text maxVocab append).
Proof.
  intros H. unfold train.
  assert (dense (if append then t else resetVocab t)) as H0.
  { destruct append; [done|]. apply dense_resetVocab. }
  destruct text; [done|]. by apply dense_train_loop.
Qed.

Lemma dense_encode_loop (l : list string) (t : Tokenizer) :
  dense t → dense (encode_loop l t).2.
Proof.
  revert t. induction l as [|x l IH]; intros t H; simpl; [done|].
  set (step := match tokenToId_get t x with
               | Undefined => if learnOnEncode t then _addToken x t
                              else (specialTokenIds_get t "UNK", t)
               | v => (v, t) end).
  assert (dense step.2) as Hstep.
  { subst step. destruct (tokenToId_get t x); [|done..].
    destruct (learnOnEncode t); [|done]. by apply dense_addToken. }
  destruct step as [v t']. specialize (IH t' Hstep).
  by destruct (encode_loop l t').
Qed.

Lemma dense_encode (t : Tokenizer) text addBOS addEOS :
  dense t → dense (encode t text addBOS addEOS).2.
Proof.
  intros H. unfold encode. destruct text; [done|].
  pose proof (dense_encode_loop (tokens_of t (String a text)) t H) as He.
  by destruct (encode_loop _ t).
Qed.

(** C4, as the code has it.  In every tokenizer that calls of [resetVocab],
    [train], [encode], [decode] and [getVocab] lead to from a new one, each
    pair [(token, id)] of [tokenToId] has [idToToken[id] == token], and the
    two maps have [vocabSize] entries each.  [load] is left out: it installs
    the maps it is given as they are. *)
Theorem reachable_bijective (t : Tokenizer) :
  reachable false t → bijective t.
Proof.
  intros H. apply dense_bijective.
  induction H as [lc sp learn|t _ IH|t text maxVocab append _ IH
                 |t text addBOS addEOS _ IH|t jsonStr t' Himp _ _ _].
  - apply dense_resetVocab.
  - apply dense_resetVocab.
  - by apply dense_train.
  - by apply dense_encode.
  - discriminate.
Qed.

Lemma reachable_bijective_witness :
  reachable false (train (encode default_Tokenizer "Hello world" true true).2
                     "to be or not to be" (Some 3) true)
  ∧ bijective (train (encode default_Tokenizer "Hello world" true true).2
                 "to be or not to be" (Some 3) true).
Proof.
  assert (H : reachable false
                (train (encode default_Tokenizer "Hello world" true true).2
                   "to be or not to be" (Some 3) true))
    by (apply reach_train, reach_encode, reach_new).
  split; [exact H|]. exact (reachable_bijective _ H).
Defined.

(** C4 does not hold once [load] is among the calls. *)
Lemma load_breaks_bijection :
  let t := (load default_Tokenizer (Some orphan_snapshot)).2 in
  reachable true t
  ∧ tokenToId t !! "a" = Some 7
  ∧ idToToken t !! pretty 7 = None
  ∧ size (tokenToId t) ≠ size (idToToken t)
  ∧ ¬ bijective t.
Proof.
  cbv zeta. split.
  - eapply (reach_load true default_Tokenizer (Some orphan_snapshot));
      [done|apply reach_new|reflexivity].
  - split; [reflexivity|]. split; [reflexivity|]. split.
    + vm_compute. discriminate.
    + intros (H & _). specialize (H "a" 7 eq_refl). vm_compute in H. discriminate.
Qed.

(** ** The bound of train *)

Lemma addToken_config (token : string) (t : Tokenizer) :
  specialTokens (_addToken token t).2 = specialTokens t
  ∧ lowercase (_addToken token t).2 = lowercase t
  ∧ learnOnEncode (_addToken token t).2 = learnOnEncode t
  ∧ tokenToId_proto (_addToken token t).2 = tokenToId_proto t.
Proof.
  by destruct (addToken_cases token t) as [(_ & _ & ->)|[_ ->]].
Qed.

Lemma addToken_vocabSize (token : string) (t : Tokenizer) :
  vocabSize t ≤ vocabSize (_addToken token t).2 ≤ vocabSize t + 1.
Proof.
  destruct (addToken_cases token t) as [(_ & _ & ->)|[_ ->]]; simpl; lia.
Qed.

Lemma reserve_fresh (t : Tokenizer) (e : string * string) :
  tokenToId_proto t = false → tokenToId t !! e.2 = None →
  reserve t e
  = with_vocab t false (<[e.2 := vocabSize t]> (tokenToId t))
      (<[pretty (vocabSize t) := e.2]> (idToToken t))
      (vocabSize t + 1) (<[e.1 := Num (vocabSize t)]> (specialTokenIds t)).
Proof.
  intros Hp Hnone. unfold reserve.
  destruct (addToken_cases e.2 t) as [(_ & _ & ->)|[Hget _]].
  - simpl. by rewrite Hp.
  - by rewrite tokenToId_get_null_proto in Hget.
Qed.

Lemma foldl_reserve_fresh (l : list (string * string)) (t : Tokenizer) :
  tokenToId_proto t = false → NoDup l.*2 →
  (∀ x, x ∈ l.*2 → tokenToId t !! x = None) →
  vocabSize (foldl reserve t l) = vocabSize t + Z.of_nat (length l)
  ∧ dom (tokenToId (foldl reserve t l))
    = dom (tokenToId t) ∪ list_to_set l.*2
  ∧ tokenToId_proto (foldl reserve t l) = false
  ∧ specialTokens (foldl reserve t l) = specialTokens t.
Proof.
  revert t. induction l as [|e l IH]; intros t Hp Hnd Hfresh.
  - simpl. split; [lia|]. split; [set_solver|done].
  - rewrite fmap_cons in Hnd, Hfresh. apply NoDup_cons in Hnd as [Hnotin Hnd].
    simpl foldl. rewrite reserve_fresh; [|done|apply Hfresh; set_solver].
    destruct (IH (with_vocab t false (<[e.2 := vocabSize t]> (tokenToId t))
                    (<[pretty (vocabSize t) := e.2]> (idToToken t))
                    (vocabSize t + 1)
                    (<[e.1 := Num (vocabSize t)]> (specialTokenIds t))))
      as (Hsize & Hdom & Hproto & Hcfg); [done|done| |].
    { intros x Hx. simpl. rewrite lookup_insert_ne; [|set_solver].
      apply Hfresh. set_solver. }
    rewrite Hsize, Hdom, Hproto, Hcfg. simpl. rewrite dom_insert_L.
    split; [lia|]. split; [set_solver|done].
Qed.

(** After [resetVocab], with four distinct special strings. *)
Lemma resetVocab_distinct (t : Tokenizer) :
  NoDup (special_values (specialTokens t)) →
  vocabSize (resetVocab t) = 4
  ∧ dom (tokenToId (resetVocab t))
    = list_to_set (special_values (specialTokens t))
  ∧ tokenToId_proto (resetVocab t) = false
  ∧ specialTokens (resetVocab t) = specialTokens t.
Proof.
  intros Hnd. unfold resetVocab.
  destruct (foldl_reserve_fresh (special_entries (specialTokens t))
              (with_vocab t false ∅ ∅ 0 ∅)) as (Hsize & Hdom & Hproto & Hcfg);
    [done|done|by intros; simpl; apply lookup_empty|].
  rewrite Hsize, Hdom. simpl. split; [done|]. split; [set_solver|done].
Qed.

Lemma train_loop_config maxVocab reserved (l : list string) (t : Tokenizer) :
  specialTokens (train_loop maxVocab reserved l t) = specialTokens t
  ∧ tokenToId_proto (train_loop maxVocab reserved l t) = tokenToId_proto t.
Proof.
  revert t. induction l as [|x l IH]; intros t; simpl; [done|].
  destruct (bound_reached _ _); [done|].
  destruct (tokenToId_get t x); [|apply IH..].
  destruct (addToken_config x t) as (Hc & _ & _ & Hp).
  destruct (IH (_addToken x t).2) as [-> ->]. done.
Qed.

(** The loop never takes [vocabSize - reserved] beyond a bound that is not
    zero. *)
Lemma train_loop_bounded (N : Z) reserved (l : list string) (t : Tokenizer) :
  N ≠ 0 → vocabSize t - reserved ≤ N →
  vocabSize (train_loop (Some N) reserved l t) - reserved ≤ N.
Proof.
  intros HN. revert t. induction l as [|x l IH]; intros t Ht; simpl; [done|].
  destruct (negb (N =? 0) && (N <=? vocabSize t - reserved)) eqn:Hb; [done|].
  apply IH. destruct (tokenToId_get t x); [|done..].
  pose proof (addToken_vocabSize x t).
  apply andb_false_iff in Hb as [Hz|Hle].
  - apply negb_false_iff, Z.eqb_eq in Hz. done.
  - apply Z.leb_gt in Hle. lia.
Qed.

Lemma train_loop_dom maxVocab reserved (l : list string) (t : Tokenizer) :
  dom (tokenToId t) ⊆ dom (tokenToId (train_loop maxVocab reserved l t)).
Proof.
  intros k [id Hk]%elem_of_dom. apply elem_of_dom. exists id.
  by apply train_loop_keeps.
Qed.

(** C2, as the code has it.  A bound of [0] is no bound: it is falsy, like
    [null].  For a bound [N] of at least 1 and four distinct special strings,
    [train(text, {maxVocab: N})], which resets first, leaves at most [N]
    entries in the vocabulary that are not special. *)
Theorem train_bounded (t : Tokenizer) (text : string) (N : Z) :
  (∀ append, train t text (Some 0) append = train t text None append)
  ∧ (NoDup (special_values (specialTokens t)) → 1 ≤ N →
     Z.of_nat (non_special (train t text (Some N) false)) ≤ N).
Proof.
  split.
  { intros append. unfold train. destruct text; [done|].
    generalize (if append then t else resetVocab t). intros t0.
    generalize ((sorted_entries (count_tokens (tokens_of t0 (String a text)))).*1).
    intros l. generalize (reserved_count t0). intros r.
    revert t0. induction l as [|x l IH]; intros t0; simpl; [done|]. apply IH. }
  intros Hnd HN.
  destruct (resetVocab_distinct t Hnd) as (Hsize & Hdom & Hproto & Hcfg).
  set (t' := train t text (Some N) false).
  assert (dense t') as Hdense.
  { subst t'. unfold train. destruct text; [apply dense_resetVocab|].
    apply dense_train_loop, dense_resetVocab. }
  assert (specialTokens t' = specialTokens t
          ∧ dom (tokenToId (resetVocab t)) ⊆ dom (tokenToId t')
          ∧ vocabSize t' - 4 ≤ N) as (Hcfg' & Hsub & Hbound).
  { subst t'. unfold train. destruct text as [|c s].
    - rewrite Hsize. split; [done|]. split; [done|lia].
    - split; [|split].
      + by rewrite (proj1 (train_loop_config _ _ _ _)).
      + apply train_loop_dom.
      + change (reserved_count (resetVocab t)) with 4.
        apply train_loop_bounded; lia. }
  unfold non_special. rewrite Hcfg'. rewrite Hdom in Hsub.
  rewrite size_difference by done.
  rewrite size_list_to_set by done. rewrite size_dom.
  pose proof (dense_size_tokens _ Hdense). simpl. lia.
Qed.

Lemma train_bounded_witness :
  NoDup (special_values (specialTokens default_Tokenizer))
  ∧ 1 ≤ 2
  ∧ Z.of_nat (non_special
                (train default_Tokenizer "to be or not to be" (Some 2) false))
    ≤ 2.
Proof.
  assert (Hnd : NoDup (special_values (specialTokens default_Tokenizer))).
  { vm_compute. repeat constructor; set_solver. }
  split; [exact Hnd|]. split; [lia|].
  exact (proj2 (train_bounded default_Tokenizer "to be or not to be" 2)
           Hnd ltac:(lia)).
Defined.

(** C2 does not hold of the bound 0: three tokens are learnt. *)
Lemma train_zero_unbounded :
  non_special (train default_Tokenizer "a b c" (Some 0) false) = 3%nat
  ∧ ¬ Z.of_nat (non_special (train default_Tokenizer "a b c" (Some 0) false))
      ≤ 0.
Proof.
  assert (non_special (train default_Tokenizer "a b c" (Some 0) false) = 3%nat)
    as H by (vm_compute; reflexivity).
  split; [exact H|]. rewrite H. lia.
Qed.

(** ** Learning while encoding *)

Lemma encode_loop_cons (x : string) (l : list string) (t : Tokenizer) :
  encode_loop (x :: l) t
  = let step := match tokenToId_get t x with
                | Undefined => if learnOnEncode t then _addToken x t
                               else (specialTokenIds_get t "UNK", t)
                | v => (v, t)
                end in
    (step.1 :: (encode_loop l step.2).1, (encode_loop l step.2).2).
Proof.
  simpl. destruct (match tokenToId_get t x with
                   | Undefined => _ | _ => _ end) as [v t'].
  simpl. by destruct (encode_loop l t').
Qed.

Lemma size_with_fresh (x : string) (L D : gset string) :
  x ∉ D → size (({[x]} ∪ L) ∖ D) = S (size (L ∖ ({[x]} ∪ D))).
Proof.
  intros Hx.
  replace (({[x]} ∪ L) ∖ D) with ({[x]} ∪ (L ∖ ({[x]} ∪ D)))
    by (apply set_eq; intros y; set_unfold;
        destruct (decide (y = x)); naive_solver).
  rewrite size_union by set_solver. by rewrite size_singleton.
Qed.

Lemma difference_with_known (x : string) (L D : gset string) :
  x ∈ D → ({[x]} ∪ L) ∖ D = L ∖ D.
Proof. set_solver. Qed.

Lemma encode_loop_learns (l : list string) (t : Tokenizer) :
  tokenToId_proto t = false → learnOnEncode t = true →
  vocabSize (encode_loop l t).2
  = vocabSize t
    + Z.of_nat (size ((list_to_set l : gset string) ∖ dom (tokenToId t)))
  ∧ dom (tokenToId (encode_loop l t).2) = dom (tokenToId t) ∪ list_to_set l.
Proof.
  revert t. induction l as [|x l IH]; intros t Hproto Hlearn.
  - cbn [encode_loop snd]. rewrite list_to_set_nil.
    rewrite difference_disjoint_L, size_empty by set_solver.
    split; [lia|]. by rewrite (right_id_L ∅ (∪)).
  - rewrite encode_loop_cons. cbv zeta. cbn [snd]. rewrite list_to_set_cons.
    destruct (tokenToId t !! x) as [id|] eqn:Hx.
    + rewrite (tokenToId_get_own t x id Hx). cbn [snd].
      destruct (IH t Hproto Hlearn) as [-> ->].
      apply elem_of_dom_2 in Hx.
      rewrite difference_with_known by done. split; [done|].
      clear IH. set_solver.
    + rewrite (tokenToId_get_null_proto t x Hproto Hx), Hlearn.
      destruct (addToken_cases x t) as [(_ & _ & Hadd)|[Hget _]];
        [|by rewrite (tokenToId_get_null_proto t x Hproto Hx) in Hget].
      rewrite Hadd. cbn [snd].
      destruct (IH (with_vocab t (tokenToId_proto t)
                      (<[x := vocabSize t]> (tokenToId t))
                      (<[pretty (vocabSize t) := x]> (idToToken t))
                      (vocabSize t + 1) (specialTokenIds t)) Hproto Hlearn)
        as [-> ->].
      cbn [tokenToId vocabSize with_vocab]. rewrite dom_insert_L.
      apply not_elem_of_dom in Hx. rewrite size_with_fresh by done.
      split; [lia|]. clear. set_solver.
Qed.

(** Learning on a tokenizer whose [tokenToId] was made by
    [Object.create(null)]: [vocabSize] grows by the number of distinct
    tokens of the text that had no id, and all of them are in the snapshot
    of [getVocab] afterwards. *)
Lemma encode_learns (t : Tokenizer) (text : string) (addBOS addEOS : bool) :
  tokenToId_proto t = false → learnOnEncode t = true →
  let unseen : gset string :=
    list_to_set (tokens_of t text) ∖ dom (tokenToId t) in
  let t' := (encode t text addBOS addEOS).2 in
  vocabSize t' = vocabSize t + Z.of_nat (size unseen)
  ∧ ∀ tok, tok ∈ unseen → tok ∈ dom (snap_tokenToId (getVocab t')).
Proof.
  intros Hproto Hlearn. cbv zeta.
  destruct (encode_loop_learns (tokens_of t text) t Hproto Hlearn)
    as [Hsize Hdom].
  assert ((encode t text addBOS addEOS).2 = (encode_loop (tokens_of t text) t).2)
    as ->.
  { unfold encode. destruct text as [|c s].
    - unfold tokens_of. by destruct (lowercase t).
    - by destruct (encode_loop _ t). }
  rewrite Hsize. split; [done|]. intros tok Htok.
  change (tok ∈ dom (tokenToId (encode_loop (tokens_of t text) t).2)).
  rewrite Hdom. clear -Htok. set_solver.
Qed.

(** C6 at a tokenizer that went through [load].  The maps that [JSON.parse]
    builds are ordinary objects, so [this.tokenToId["constructor"]] is the
    member inherited from [Object.prototype] and not [undefined]: [encode]
    takes the token for a known one, pushes that member as its id and
    learns nothing, although the token has no entry in the vocabulary
    before or after. *)
Theorem encode_after_load_misses_inherited_names :
  let t := (load default_Tokenizer (Some saved_default_vocab)).2 in
  let r := encode t "constructor" false false in
  (load default_Tokenizer (Some saved_default_vocab)).1 = Normal
  ∧ getVocab t = getVocab default_Tokenizer
  ∧ learnOnEncode t = true
  ∧ tokens_of t "constructor" = ["constructor"]
  ∧ tokenToId t !! "constructor" = None
  ∧ r.1 = [Inherited "constructor"]
  ∧ vocabSize r.2 = vocabSize t
  ∧ snap_tokenToId (getVocab r.2) !! "constructor" = None.
Proof. vm_compute. repeat split; reflexivity. Qed.

(** ** The order in which train adds tokens *)

(** *** The stable sort *)

Lemma insert_sorted_perm {A} (compare : A → A → Z) (x : A) (l : list A) :
  insert_sorted compare x l ≡ₚ x :: l.
Proof.
  induction l as [|y l IH]; simpl; [done|].
  destruct (compare x y <=? 0); [done|]. rewrite IH. apply Permutation_swap.
Qed.

(** The sorted array has the elements of the array. *)
Lemma array_sort_perm {A} (compare : A → A → Z) (l : list A) :
  array_sort compare l ≡ₚ l.
Proof.
  induction l as [|x l IH]; simpl; [done|].
  by rewrite insert_sorted_perm, IH.
Qed.

Section SortFacts.
Context {A : Type} (key : A → Z).

Lemma insert_sorted_sorted (x : A) (l : list A) :
  StronglySorted (λ a b, key b ≤ key a) l →
  StronglySorted (λ a b, key b ≤ key a) (insert_sorted (descending key) x l).
Proof.
  induction 1 as [|y l Hl IH Hy]; simpl.
  - repeat constructor.
  - unfold descending at 1. destruct (key y - key x <=? 0) eqn:Hc.
    + apply Z.leb_le in Hc. constructor; [by constructor|].
      constructor; [lia|]. eapply Forall_impl; [exact Hy|]. simpl. lia.
    + apply Z.leb_gt in Hc. constructor; [done|].
      rewrite insert_sorted_perm. constructor; [lia|done].
Qed.

(** The sorted array is in descending order of the key. *)
Lemma array_sort_sorted (l : list A) :
  StronglySorted (λ a b, key b ≤ key a) (array_sort (descending key) l).
Proof.
  induction l as [|x l IH]; simpl; [constructor|].
  by apply insert_sorted_sorted.
Qed.

Lemma insert_sorted_stable (n : Z) (x : A) (l : list A) :
  filter (λ a, key a = n) (insert_sorted (descending key) x l)
  = filter (λ a, key a = n) (x :: l).
Proof.
  induction l as [|y l IH]; simpl; [done|].
  unfold descending at 1. destruct (key y - key x <=? 0) eqn:Hc; [done|].
  apply Z.leb_gt in Hc.
  rewrite (filter_cons _ y), IH, !filter_cons.
  destruct (decide (key y = n)), (decide (key x = n)); try done. lia.
Qed.

(** The sort is stable: the elements of one key keep their order. *)
Lemma array_sort_stable (n : Z) (l : list A) :
  filter (λ a, key a = n) (array_sort (descending key) l)
  = filter (λ a, key a = n) l.
Proof.
  induction l as [|x l IH]; simpl; [done|].
  by rewrite insert_sorted_stable, !filter_cons, IH.
Qed.

End SortFacts.

Lemma sublist_filter_mono {A} (P : A → Prop) `{!∀ x, Decision (P x)}
    (l1 l2 : list A) :
  l1 `sublist_of` l2 → filter P l1 `sublist_of` filter P l2.
Proof.
  induction 1 as [|x l1 l2 _ IH|x l1 l2 _ IH]; [done|..];
    rewrite !filter_cons; destruct (decide (P x));
    auto using sublist_skip, sublist_cons.
Qed.

Lemma sublist_StronglySorted {A} (R : relation A) (l1 l2 : list A) :
  l1 `sublist_of` l2 → StronglySorted R l2 → StronglySorted R l1.
Proof.
  induction 1 as [|x l1 l2 Hsub IH|x l1 l2 _ IH]; intros Hs; [done|..].
  - apply StronglySorted_inv in Hs as [Hs Hall]. constructor; [by apply IH|].
    rewrite Forall_forall in Hall |- *. intros y Hy. apply Hall.
    by eapply elem_of_sublist.
  - apply StronglySorted_inv in Hs as [Hs _]. by apply IH.
Qed.

Lemma filter_fmap_agree {A B} (g : A → B) (P : B → Prop) (Q : A → Prop)
    `{!∀ y, Decision (P y)} `{!∀ x, Decision (Q x)} (l : list A) :
  (∀ x, x ∈ l → P (g x) ↔ Q x) →
  filter P (g <$> l) = g <$> filter Q l.
Proof.
  induction l as [|x l IH]; intros Hag; [done|].
  rewrite fmap_cons, !filter_cons, IH by (intros; apply Hag; set_solver).
  pose proof (Hag x ltac:(set_solver)) as Hx.
  destruct (decide (P (g x))), (decide (Q x)); try done; tauto.
Qed.

(** *** The table of frequencies *)

Lemma occurrences_snoc (tok : string) (tokens : list string) (x : string) :
  occurrences tok (tokens ++ [x])
  = occurrences tok tokens + (if decide (tok = x) then 1 else 0).
Proof.
  unfold occurrences. rewrite filter_app, length_app, filter_cons, filter_nil.
  destruct (decide (tok = x)); simpl; lia.
Qed.

Lemma occurrences_absent (tok : string) (tokens : list string) :
  tok ∉ tokens → occurrences tok tokens = 0.
Proof.
  intros Hnot. unfold occurrences.
  induction tokens as [|x l IH]; [done|].
  rewrite filter_cons. destruct (decide (tok = x)) as [->|_]; [set_solver|].
  apply IH. set_solver.
Qed.

Lemma bump_keys (x : string) (f : table) :
  (bump x f).*1 = if decide (x ∈ f.*1) then f.*1 else f.*1 ++ [x].
Proof.
  induction f as [|[k n] f IH]; [done|]. cbn [bump].
  destruct (decide (x = k)) as [->|Hne]; rewrite !fmap_cons; cbn [fst].
  - rewrite decide_True; [done|set_solver].
  - rewrite IH. destruct (decide (x ∈ f.*1)).
    + rewrite decide_True; [done|set_solver].
    + rewrite decide_False; [done|set_solver].
Qed.

Lemma bump_elem (x : string) (f : table) (k : string) (n : Z) :
  NoDup f.*1 → (k, n) ∈ bump x f →
  (k ≠ x ∧ (k, n) ∈ f)
  ∨ (k = x ∧ (((x ∉ f.*1) ∧ n = 1) ∨ ∃ m, (x, m) ∈ f ∧ n = m + 1)).
Proof.
  induction f as [|[k' n'] f IH]; cbn [bump].
  - intros _ [= -> ->]%list_elem_of_singleton. right. split; [done|].
    left. split; [set_solver|done].
  - rewrite fmap_cons. cbn [fst].
    intros [Hk' Hnd]%NoDup_cons. destruct (decide (x = k')) as [->|Hne].
    + intros [[= -> ->]|Hin]%elem_of_cons.
      * right. split; [done|]. right. exists n'. split; [set_solver|done].
      * left. split; [|set_solver]. intros ->. apply Hk'.
        apply list_elem_of_fmap. by exists (k', n).
    + intros [[= -> ->]|Hin]%elem_of_cons.
      * left. split; [done|set_solver].
      * destruct (IH Hnd Hin) as [[? ?]|[-> [[? ->]|(m & ? & ->)]]].
        -- left. split; [done|set_solver].
        -- right. split; [done|]. left. split; [set_solver|done].
        -- right. split; [done|]. right. exists m. split; [set_solver|done].
Qed.

Lemma count_tokens_snoc (tokens : list string) (x : string) :
  count_tokens (tokens ++ [x]) = bump x (count_tokens tokens).
Proof. unfold count_tokens. by rewrite foldl_app. Qed.

(** The table built by [train] has each token of the text once, with the
    number of its occurrences. *)
Lemma count_tokens_spec (tokens : list string) :
  NoDup (count_tokens tokens).*1
  ∧ (∀ k, k ∈ tokens → k ∈ (count_tokens tokens).*1)
  ∧ ∀ k n, (k, n) ∈ count_tokens tokens →
           n = occurrences k tokens ∧ k ∈ tokens.
Proof.
  induction tokens as [|x ts (Hnd & Hkeys & Hval)] using rev_ind.
  - split; [constructor|]. split; [set_solver|]. intros k n Hin.
    by apply elem_of_nil in Hin.
  - rewrite count_tokens_snoc. split; [|split].
    + rewrite bump_keys. destruct (decide (x ∈ (count_tokens ts).*1)); [done|].
      apply NoDup_app. split; [done|]. split; [set_solver|].
      apply NoDup_singleton.
    + intros k Hk. rewrite bump_keys.
      destruct (decide (x ∈ (count_tokens ts).*1)); set_solver.
    + intros k n Hin. rewrite occurrences_snoc.
      destruct (bump_elem x _ k n Hnd Hin)
        as [[Hne Hf]|[-> [[Hnew ->]|(m & Hf & ->)]]].
      * destruct (Hval k n Hf) as [-> ?]. rewrite decide_False by done.
        split; [lia|set_solver].
      * rewrite decide_True by done. rewrite occurrences_absent; [set_solver|].
        intros Hin'. by apply Hnew, Hkeys.
      * destruct (Hval x m Hf) as [-> ?]. rewrite decide_True by done.
        split; [done|set_solver].
Qed.

Lemma entries_elem (f : table) (e : string * Z) : e ∈ entries f → e ∈ f.
Proof.
  unfold entries. rewrite elem_of_app, array_sort_perm, !list_elem_of_filter.
  tauto.
Qed.

(** Each sorted entry carries the frequency of its token in the text. *)
Lemma sorted_entries_spec (tokens : list string) (e : string * Z) :
  e ∈ sorted_entries (count_tokens tokens) →
  e.2 = occurrences e.1 tokens ∧ e.1 ∈ tokens.
Proof.
  unfold sorted_entries. rewrite array_sort_perm. intros He%entries_elem.
  destruct e as [k n]. by apply count_tokens_spec.
Qed.

(** *** The walk over the sorted entries *)

Lemma loop_added_sublist maxVocab reserved (l : list string) (t : Tokenizer) :
  loop_added maxVocab reserved l t `sublist_of` l.
Proof.
  revert t. induction l as [|x l IH]; intros t; simpl; [done|].
  destruct (bound_reached _ _); [apply sublist_nil_l|].
  destruct (tokenToId_get t x); auto using sublist_skip, sublist_cons.
Qed.

Lemma loop_added_fresh maxVocab reserved (l : list string) (t : Tokenizer)
    (tok : string) :
  tok ∈ loop_added maxVocab reserved l t →
  tokenToId t !! tok = None
  ∧ is_Some (tokenToId (train_loop maxVocab reserved l t) !! tok).
Proof.
  revert t. induction l as [|x l IH]; intros t; simpl.
  - by intros ?%elem_of_nil.
  - destruct (bound_reached _ _); [by intros ?%elem_of_nil|].
    destruct (tokenToId_get t x) eqn:Hget; try apply IH.
    pose proof (tokenToId_get_undefined t x Hget) as Hnone.
    intros [->|Hin]%elem_of_cons.
    + split; [done|]. exists (vocabSize t). apply train_loop_keeps.
      destruct (addToken_cases x t) as [(_ & _ & ->)|[? _]]; [|done].
      simpl. apply lookup_insert_eq.
    + destruct (IH _ Hin) as [Hnot Hsome]. split; [|done].
      destruct (tokenToId t !! tok) as [id|] eqn:Htok; [|done].
      by rewrite (addToken_keeps x t tok id Htok) in Hnot.
Qed.

Lemma train_loop_vocabSize_le maxVocab reserved (l : list string) (t : Tokenizer) :
  vocabSize t ≤ vocabSize (train_loop maxVocab reserved l t).
Proof.
  revert t. induction l as [|x l IH]; intros t; simpl; [done|].
  destruct (bound_reached _ _); [done|].
  destruct (tokenToId_get t x); try apply IH.
  pose proof (addToken_vocabSize x t). pose proof (IH (_addToken x t).2). lia.
Qed.

(** The loop writes [idToToken] at the ids from [vocabSize] on only. *)
Lemma train_loop_ids_below maxVocab reserved (l : list string) (t : Tokenizer)
    (k : Z) :
  k < vocabSize t →
  idToToken (train_loop maxVocab reserved l t) !! pretty k
  = idToToken t !! pretty k.
Proof.
  revert t. induction l as [|x l IH]; intros t Hk; simpl; [done|].
  destruct (bound_reached _ _); [done|].
  destruct (tokenToId_get t x); try by apply IH.
  pose proof (addToken_vocabSize x t). rewrite IH by lia.
  destruct (addToken_cases x t) as [(_ & _ & ->)|[_ ->]]; [|done].
  simpl. apply lookup_insert_ne. intros ?%(inj pretty). lia.
Qed.

Lemma train_loop_added maxVocab reserved (l : list string) (t : Tokenizer) :
  vocabSize (train_loop maxVocab reserved l t)
  = vocabSize t + Z.of_nat (length (loop_added maxVocab reserved l t))
  ∧ ∀ (i : nat) tok,
      loop_added maxVocab reserved l t !! i = Some tok →
      idToToken (train_loop maxVocab reserved l t)
        !! pretty (vocabSize t + Z.of_nat i) = Some tok.
Proof.
  revert t. induction l as [|x l IH]; intros t; simpl.
  - split; [lia|]. intros i tok. by rewrite lookup_nil.
  - destruct (bound_reached _ _).
    { split; [simpl; lia|]. intros i tok. by rewrite lookup_nil. }
    destruct (tokenToId_get t x) eqn:Hget; try apply IH.
    destruct (IH (_addToken x t).2) as [Hsize Hids].
    destruct (addToken_cases x t) as [(_ & _ & Hadd)|[? _]]; [|done].
    rewrite Hadd in *. cbn [snd vocabSize with_vocab] in *. split.
    + rewrite Hsize. cbn [length]. lia.
    + intros [|i] tok; cbn [lookup list_lookup].
      * intros [= ->]. rewrite train_loop_ids_below by (simpl; lia).
        cbn [idToToken with_vocab].
        replace (vocabSize t + Z.of_nat 0) with (vocabSize t) by lia.
        apply lookup_insert_eq.
      * intros Hi. specialize (Hids i tok Hi).
        by replace (vocabSize t + Z.of_nat (S i))
          with (vocabSize t + 1 + Z.of_nat i) by lia.
Qed.

Lemma omap_seq_lookup {A} (f : nat → option A) (l : list A) (a : nat) :
  (∀ i x, l !! i = Some x → f (a + i)%nat = Some x) →
  omap f (seq a (length l)) = l.
Proof.
  revert a. induction l as [|x l IH]; intros a Hf; [done|].
  simpl. rewrite <- (Nat.add_0_r a) at 1. rewrite (Hf 0%nat x eq_refl).
  f_equal. apply IH. intros i y Hi.
  replace (S a + i)%nat with (a + S i)%nat by lia. by apply Hf.
Qed.

(** The tokens found at the new ids are the tokens the loop took. *)
Lemma added_between_train_loop maxVocab reserved (l : list string)
    (t : Tokenizer) :
  added_between t (train_loop maxVocab reserved l t)
  = loop_added maxVocab reserved l t.
Proof.
  destruct (train_loop_added maxVocab reserved l t) as [Hsize Hids].
  unfold added_between. rewrite Hsize.
  replace (Z.to_nat _) with (length (loop_added maxVocab reserved l t)) by lia.
  apply omap_seq_lookup. intros i x Hi. simpl. by apply Hids.
Qed.

Lemma resetVocab_lowercase (t : Tokenizer) :
  lowercase (resetVocab t) = lowercase t.
Proof.
  unfold resetVocab.
  change (lowercase t) with (lowercase (with_vocab t false ∅ ∅ 0 ∅)).
  generalize (with_vocab t false ∅ ∅ 0 ∅).
  induction (special_entries (specialTokens t)) as [|e l IH]; intros t0;
    simpl; [done|].
  rewrite IH. unfold reserve.
  destruct (addToken_config e.2 t0) as (_ & Hlc & _).
  by destruct (_addToken e.2 t0).
Qed.

Lemma sorted_tokens (tokens : list string) (se : list (string * Z)) :
  (∀ e, e ∈ se → e.2 = occurrences e.1 tokens) →
  StronglySorted (λ a b : string * Z, b.2 ≤ a.2) se →
  StronglySorted (λ a b, occurrences b tokens ≤ occurrences a tokens) se.*1.
Proof.
  intros Hocc. induction 1 as [|e se Hs IH Hall]; [constructor|].
  rewrite fmap_cons. constructor.
  - apply IH. intros e' He'. apply Hocc. set_solver.
  - rewrite Forall_fmap, Forall_forall in *. intros e' He'. simpl.
    rewrite <- (Hocc e), <- (Hocc e') by set_solver. by apply Hall.
Qed.

(** *** Which candidates the walk takes *)

Lemma entries_perm (f : table) : entries f ≡ₚ f.
Proof.
  unfold entries. rewrite array_sort_perm.
  apply (filter_app_complement (λ e : string * Z, is_Some (array_index e.1))).
Qed.

Lemma sorted_entries_NoDup (tokens : list string) :
  NoDup (sorted_entries (count_tokens tokens)).*1.
Proof.
  unfold sorted_entries. rewrite array_sort_perm, entries_perm.
  apply count_tokens_spec.
Qed.

Lemma addToken_get_other (token : string) (t : Tokenizer) (x : string) :
  x ≠ token → tokenToId_get (_addToken token t).2 x = tokenToId_get t x.
Proof.
  intros Hne. destruct (addToken_cases token t) as [(_ & _ & ->)|[_ ->]];
    [|done].
  unfold tokenToId_get. cbn [snd tokenToId tokenToId_proto with_vocab].
  by rewrite lookup_insert_ne.
Qed.

Lemma fresh_candidates_addToken (token : string) (t : Tokenizer)
    (l : list string) :
  token ∉ l →
  fresh_candidates (_addToken token t).2 l = fresh_candidates t l.
Proof.
  intros Hnot. unfold fresh_candidates. induction l as [|y l IH]; [done|].
  apply not_elem_of_cons in Hnot as [Hne Hnot].
  rewrite !filter_cons, (addToken_get_other token t y) by done.
  by rewrite IH.
Qed.

(** The walk takes the candidates without an id in their order, as many as
    the bound lets in. *)
Lemma loop_added_within maxVocab reserved (l : list string) (t : Tokenizer) :
  NoDup l →
  loop_added maxVocab reserved l t
  = within (allowance maxVocab (vocabSize t - reserved)) (fresh_candidates t l).
Proof.
  intros Hnd. revert t.
  induction Hnd as [|x l Hx Hnd IH]; intros t.
  { unfold fresh_candidates, within. rewrite filter_nil. cbn [loop_added].
    by destruct (allowance _ _) as [[|k]|]. }
  cbn [loop_added]. unfold fresh_candidates. rewrite filter_cons.
  fold (fresh_candidates t l).
  destruct (bound_reached maxVocab (vocabSize t - reserved)) eqn:Hb.
  { unfold bound_reached, allowance in *. destruct maxVocab as [m|]; [|done].
    destruct (m =? 0); [done|]. simpl in Hb. apply Z.leb_le in Hb.
    replace (Z.to_nat _) with 0%nat by lia. done. }
  destruct (tokenToId_get t x) eqn:Hget.
  - rewrite decide_True by done. rewrite IH.
    rewrite (fresh_candidates_addToken x t l Hx).
    destruct (addToken_cases x t) as [(_ & _ & Hadd)|[? _]]; [|done].
    rewrite Hadd. cbn [snd vocabSize with_vocab].
    unfold bound_reached, allowance in *. destruct maxVocab as [m|]; [|done].
    destruct (m =? 0); [done|]. simpl in Hb. apply Z.leb_gt in Hb.
    unfold within.
    replace (Z.to_nat (m - (vocabSize t - reserved)))
      with (S (Z.to_nat (m - (vocabSize t + 1 - reserved)))) by lia.
    done.
  - rewrite decide_False by done. apply IH.
  - rewrite decide_False by done. apply IH.
Qed.

(** A token the walk takes gets the id that its place among them gives. *)
Lemma train_loop_added_ids maxVocab reserved (l : list string) (t : Tokenizer)
    (i : nat) (tok : string) :
  loop_added maxVocab reserved l t !! i = Some tok →
  tokenToId (train_loop maxVocab reserved l t) !! tok
  = Some (vocabSize t + Z.of_nat i).
Proof.
  revert t i. induction l as [|x l IH]; intros t i; simpl.
  - by rewrite lookup_nil.
  - destruct (bound_reached _ _); [by rewrite lookup_nil|].
    destruct (tokenToId_get t x) eqn:Hget; try apply IH.
    destruct (addToken_cases x t) as [(_ & _ & Hadd)|[? _]]; [|done].
    destruct i as [|i]; cbn [lookup list_lookup].
    + intros [= ->]. apply train_loop_keeps. rewrite Hadd. simpl.
      replace (vocabSize t + Z.of_nat 0) with (vocabSize t) by lia.
      apply lookup_insert_eq.
    + intros Hi. rewrite (IH _ _ Hi), Hadd. simpl. f_equal. lia.
Qed.

(** *** One element before another *)

Lemma sublist_pair_lookup {A} (a b : A) (l : list A) :
  [a; b] `sublist_of` l →
  ∃ i j : nat, (i < j)%nat ∧ l !! i = Some a ∧ l !! j = Some b.
Proof.
  induction l as [|x l IH]; [by intros ?%sublist_nil_r|].
  intros [H|(l' & [= <- <-] & Hb)]%sublist_cons_r.
  - destruct (IH H) as (i & j & Hij & Hi & Hj).
    exists (S i), (S j). split; [lia|]. done.
  - apply singleton_sublist_l, list_elem_of_lookup in Hb as [j Hj].
    exists 0%nat, (S j). split; [lia|]. done.
Qed.

Lemma sublist_pair_or {A} (a b : A) (l : list A) :
  a ∈ l → b ∈ l → a ≠ b → [a; b] `sublist_of` l ∨ [b; a] `sublist_of` l.
Proof.
  intros Ha Hb Hne. induction l as [|x l IH]; [by apply elem_of_nil in Ha|].
  apply elem_of_cons in Ha as [->|Ha]; apply elem_of_cons in Hb as [->|Hb].
  - done.
  - left. apply sublist_skip. by apply singleton_sublist_l.
  - right. apply sublist_skip. by apply singleton_sublist_l.
  - destruct (IH Ha Hb); [left|right]; by apply sublist_cons.
Qed.

(** In a list without duplicates, what comes before an element of a prefix
    is in the prefix. *)
Lemma sublist_pair_take {A} (a b : A) (l : list A) (k : nat) :
  NoDup l → [a; b] `sublist_of` l → b ∈ take k l →
  [a; b] `sublist_of` take k l.
Proof.
  intros Hnd Hsub Hb. rewrite <- (take_drop k l) in Hsub, Hnd.
  apply NoDup_app in Hnd as (_ & Hdisj & _).
  apply sublist_app_r in Hsub as (l1 & l2 & Heq & H1 & H2).
  destruct l1 as [|a' [|b' l1]]; simplify_eq/=.
  - destruct (Hdisj b Hb). eapply elem_of_sublist; [|exact H2]. set_solver.
  - destruct (Hdisj b Hb). eapply elem_of_sublist; [|exact H2]. set_solver.
  - assert (l1 = []) as -> by (by destruct l1). done.
Qed.

Lemma sublist_pair_within {A} (a b : A) (l : list A) (k : option nat) :
  NoDup l → [a; b] `sublist_of` l → b ∈ within k l →
  [a; b] `sublist_of` within k l.
Proof. destruct k; [apply sublist_pair_take|done]. Qed.

Lemma sublist_pair_sorted {A} (R : relation A) (a b : A) (l : list A) :
  StronglySorted R l → [a; b] `sublist_of` l → R a b.
Proof.
  intros Hs Hsub. pose proof (sublist_StronglySorted R _ _ Hsub Hs) as H.
  apply StronglySorted_inv in H as [_ H]. by apply Forall_cons in H as [? _].
Qed.

(** C8. The tokens that one call of [train] adds, read off the ids it gave
    in the order it gave them, come in non-increasing order of their
    frequency in the text of the call, and those of one frequency come in
    the order in which [Object.entries(freq)] lists them, which is what a
    stable sort leaves.  They are the candidates without an id, taken from
    the front of the sorted entries and as many as the bound lets in: all
    of them without a bound.  So a token without an id that is more
    frequent than a token added, or as frequent and earlier in
    [Object.entries(freq)], is added too and gets a smaller id.  (With
    [append = false] the call first resets; the tokens meant are those
    added after that.) *)
Theorem train_adds_most_frequent_first (t : Tokenizer) (text : string)
    (maxVocab : option Z) (append : bool) :
  let t0 := if append then t else resetVocab t in
  let t' := train t text maxVocab append in
  let tokens := tokens_of t text in
  let added := added_between t0 t' in
  vocabSize t' = vocabSize t0 + Z.of_nat (length added)
  ∧ (∀ tok, tok ∈ added →
       tok ∈ tokens ∧ tokenToId t0 !! tok = None ∧ is_Some (tokenToId t' !! tok))
  ∧ StronglySorted
      (λ a b, occurrences b tokens ≤ occurrences a tokens) added
  ∧ (∀ n, filter (λ tok, occurrences tok tokens = n) added
          `sublist_of`
          filter (λ tok, occurrences tok tokens = n)
                 (entries (count_tokens tokens)).*1)
  ∧ added
    = within (allowance maxVocab (vocabSize t0 - reserved_count t0))
        (fresh_candidates t0 (sorted_entries (count_tokens tokens)).*1)
  ∧ (∀ (i : nat) tok,
       added !! i = Some tok →
       tokenToId t' !! tok = Some (vocabSize t0 + Z.of_nat i))
  ∧ ∀ a b,
      b ∈ added → a ∈ tokens → tokenToId_get t0 a = Undefined →
      occurrences b tokens < occurrences a tokens
      ∨ (occurrences a tokens = occurrences b tokens
         ∧ [a; b] `sublist_of` (entries (count_tokens tokens)).*1) →
      ∃ ida idb,
        tokenToId t' !! a = Some ida ∧ tokenToId t' !! b = Some idb
        ∧ vocabSize t0 ≤ ida < idb.
Proof.
  cbv zeta. unfold train.
  set (t0 := if append then t else resetVocab t).
  assert (tokens_of t0 text = tokens_of t text) as Htok.
  { subst t0. unfold tokens_of. destruct append; [done|].
    by rewrite resetVocab_lowercase. }
  destruct text as [|c s].
  { assert (tokens_of t "" = []) as ->
      by (unfold tokens_of; by destruct (lowercase t)).
    unfold added_between. rewrite Z.sub_diag. simpl.
    split; [lia|]. split; [by intros tok ?%elem_of_nil|].
    split; [constructor|]. split; [intros n; apply sublist_nil_l|].
    split; [by destruct (allowance _ _) as [[|k]|]|].
    split; [intros i tok; by rewrite lookup_nil|].
    by intros a b ?%elem_of_nil. }
  rewrite Htok. set (tokens := tokens_of t (String c s)).
  set (se := sorted_entries (count_tokens tokens)).
  set (k := allowance maxVocab (vocabSize t0 - reserved_count t0)).
  rewrite added_between_train_loop.
  pose proof (loop_added_sublist maxVocab (reserved_count t0) se.*1 t0) as Hsub.
  pose proof (sorted_entries_NoDup tokens) as Hnd. fold se in Hnd.
  pose proof (loop_added_within maxVocab (reserved_count t0) se.*1 t0 Hnd)
    as Hwithin. fold k in Hwithin.
  assert (∀ e, e ∈ se → e.2 = occurrences e.1 tokens) as Hocc
    by (intros e He; by apply sorted_entries_spec).
  assert (StronglySorted (λ a b, occurrences b tokens ≤ occurrences a tokens)
            se.*1) as Hsorted
    by (apply sorted_tokens; [done|apply (array_sort_sorted snd)]).
  assert (∀ n, filter (λ tok, occurrences tok tokens = n) se.*1
               = filter (λ tok, occurrences tok tokens = n)
                        (entries (count_tokens tokens)).*1) as Hstable.
  { intros n.
    rewrite (filter_fmap_agree fst _ (λ e : string * Z, e.2 = n) se)
      by (intros e He; by rewrite (Hocc e He)).
    rewrite (filter_fmap_agree fst _ (λ e : string * Z, e.2 = n)
               (entries (count_tokens tokens))).
    - f_equal. apply (array_sort_stable snd).
    - intros [x m] He%entries_elem. simpl.
      by destruct (proj2 (proj2 (count_tokens_spec tokens)) x m He) as [-> _]. }
  split; [apply train_loop_added|]. split; [|split; [|split; [|split; [|split]]]].
  - intros tok Htokin.
    destruct (loop_added_fresh _ _ _ _ _ Htokin) as [Hnone Hsome].
    split; [|done].
    apply (elem_of_sublist _ _ _ Htokin) in Hsub.
    apply list_elem_of_fmap in Hsub as (e & -> & He).
    by apply sorted_entries_spec.
  - by eapply sublist_StronglySorted.
  - intros n. rewrite <- Hstable. by apply sublist_filter_mono.
  - done.
  - intros i tok. apply train_loop_added_ids.
  - intros a b Hb Ha Hfresh Hfreq.
    assert (tokenToId_get t0 b = Undefined) as Hbfresh.
    { rewrite Hwithin in Hb.
      assert (b ∈ fresh_candidates t0 se.*1) as Hbin
        by (destruct k; [eapply elem_of_sublist; [done|apply sublist_take]|done]).
      by apply list_elem_of_filter in Hbin as [? _]. }
    assert (a ∈ se.*1) as Hain.
    { destruct (count_tokens_spec tokens) as (_ & Hkeys & _).
      apply Hkeys in Ha. unfold se, sorted_entries.
      by rewrite array_sort_perm, entries_perm. }
    assert (b ∈ se.*1) as Hbin by (by eapply elem_of_sublist).
    assert ([a; b] `sublist_of` se.*1) as Hab.
    { destruct Hfreq as [Hlt|[Heq Hpair]].
      - destruct (sublist_pair_or a b se.*1 Hain Hbin) as [H|H];
          [intros ->; lia|done|].
        pose proof (sublist_pair_sorted _ _ _ _ Hsorted H). simpl in *. lia.
      - apply (sublist_filter_mono
                 (λ tok, occurrences tok tokens = occurrences b tokens))
          in Hpair.
        rewrite <- Hstable in Hpair.
        rewrite !filter_cons, filter_nil in Hpair.
        rewrite decide_True in Hpair by done.
        rewrite decide_True in Hpair by done.
        etrans; [exact Hpair|]. apply sublist_filter. }
    apply (sublist_filter_mono (λ tok, tokenToId_get t0 tok = Undefined))
      in Hab.
    rewrite !filter_cons, filter_nil in Hab.
    rewrite decide_True in Hab by done. rewrite decide_True in Hab by done.
    fold (fresh_candidates t0 se.*1) in Hab.
    assert (NoDup (fresh_candidates t0 se.*1)) as Hndf
      by (eapply sublist_NoDup; [done|apply sublist_filter]).
    rewrite Hwithin in Hb.
    pose proof (sublist_pair_within a b _ k Hndf Hab Hb) as Hpair.
    rewrite <- Hwithin in Hpair.
    apply sublist_pair_lookup in Hpair as (i & j & Hij & Hi & Hj).
    exists (vocabSize t0 + Z.of_nat i), (vocabSize t0 + Z.of_nat j).
    split; [by apply train_loop_added_ids|].
    split; [by apply train_loop_added_ids|]. lia.
Qed.

Lemma train_adds_most_frequent_first_witness :
  let t' := train default_Tokenizer "b a a c c c" (Some 2) true in
  added_between default_Tokenizer t' = ["c"; "a"]
  ∧ ∃ ida idb,
      tokenToId t' !! "c" = Some ida ∧ tokenToId t' !! "a" = Some idb
      ∧ vocabSize default_Tokenizer ≤ ida < idb.
Proof.
  cbv zeta. split; [vm_compute; reflexivity|].
  refine (proj2 (proj2 (proj2 (proj2 (proj2 (proj2
            (train_adds_most_frequent_first default_Tokenizer "b a a c c c"
               (Some 2) true))))))
            "c" "a" _ _ _ _).
  - apply (bool_decide_unpack _). vm_compute. exact I.
  - apply (bool_decide_unpack _). vm_compute. exact I.
  - vm_compute. reflexivity.
  - left. vm_compute. reflexivity.
Defined.

Example train_order_sample :
  added_between default_Tokenizer
    (train default_Tokenizer "b a a c c c 10 9 9" None true)
  = ["c"; "9"; "a"; "10"; "b"].
Proof. vm_compute. reflexivity. Qed.

(** ** What every method keeps *)

Section Preserved.
Context (P : Tokenizer → Prop).
Context (P_addToken : ∀ tok t, P t → P (_addToken tok t).2).

Lemma train_loop_preserves maxVocab reserved (l : list string) (t : Tokenizer) :
  P t → P (train_loop maxVocab reserved l t).
Proof.
  revert t. induction l as [|x l IH]; intros t Ht; simpl; [done|].
  destruct (bound_reached _ _); [done|]. apply IH.
  destruct (tokenToId_get t x); [|done..]. by apply P_addToken.
Qed.

Lemma encode_loop_preserves (l : list string) (t : Tokenizer) :
  P t → P (encode_loop l t).2.
Proof.
  revert t. induction l as [|x l IH]; intros t Ht; [done|].
  rewrite encode_loop_cons. cbv zeta. cbn [snd]. apply IH.
  destruct (tokenToId_get t x); [|done..].
  destruct (learnOnEncode t); [|done]. by apply P_addToken.
Qed.

Lemma encode_preserves (t : Tokenizer) text addBOS addEOS :
  P t → P (encode t text addBOS addEOS).2.
Proof.
  intros Ht. unfold encode. destruct text; [done|].
  pose proof (encode_loop_preserves (tokens_of t (String a text)) t Ht) as He.
  by destruct (encode_loop _ t).
Qed.

Context (P_resetVocab : ∀ t, P (resetVocab t)).

Lemma train_preserves (t : Tokenizer) text maxVocab append :
  P t → P (train t text maxVocab append).
Proof.
  intros Ht. unfold train.
  assert (P (if append then t else resetVocab t)) as H0
    by (by destruct append).
  destruct text; [done|]. by apply train_loop_preserves.
Qed.

(** A property that holds after [resetVocab] and that [_addToken] keeps
    holds of every tokenizer that calls other than [load] lead to. *)
Lemma reachable_preserves (t : Tokenizer) : reachable false t → P t.
Proof.
  induction 1 as [lc sp learn|t _ IH|t text maxVocab append _ IH
                 |t text addBOS addEOS _ IH|t jsonStr t' Himp _ _ _].
  - apply P_resetVocab.
  - apply P_resetVocab.
  - by apply train_preserves.
  - by apply encode_preserves.
  - discriminate.
Qed.

End Preserved.

Section PreservedByReset.
Context (P : Tokenizer → Prop).
Context (P_addToken : ∀ tok t, P t → P (_addToken tok t).2).
Context (P_specialTokenIds :
           ∀ t sp, P t →
                   P (with_vocab t (tokenToId_proto t) (tokenToId t)
                        (idToToken t) (vocabSize t) sp)).

Lemma foldl_reserve_preserves (l : list (string * string)) (t : Tokenizer) :
  P t → P (foldl reserve t l).
Proof.
  revert t. induction l as [|e l IH]; intros t Ht; simpl; [done|].
  apply IH. unfold reserve. pose proof (P_addToken e.2 t Ht) as Ht'.
  destruct (_addToken e.2 t) as [id t']. by apply P_specialTokenIds.
Qed.

Lemma resetVocab_preserves (t : Tokenizer) :
  P (with_vocab t false ∅ ∅ 0 ∅) → P (resetVocab t).
Proof. apply foldl_reserve_preserves. Qed.

End PreservedByReset.

(** *** The options *)

Lemma same_options_refl (t : Tokenizer) : same_options t t.
Proof. done. Qed.

Lemma same_options_trans (t1 t2 t3 : Tokenizer) :
  same_options t1 t2 → same_options t2 t3 → same_options t1 t3.
Proof. intros (? & ? & ?) (? & ? & ?). repeat split; congruence. Qed.

Lemma addToken_same_options (t0 : Tokenizer) (tok : string) (t : Tokenizer) :
  same_options t0 t → same_options t0 (_addToken tok t).2.
Proof.
  intros (? & ? & ?). destruct (addToken_config tok t) as (? & ? & ? & _).
  repeat split; congruence.
Qed.

Lemma resetVocab_same_options (t : Tokenizer) : same_options t (resetVocab t).
Proof.
  unfold resetVocab. apply (foldl_reserve_preserves (same_options t));
    [apply addToken_same_options|done|done].
Qed.

Lemma resetVocab_by_options (t1 t2 : Tokenizer) :
  same_options t1 t2 → resetVocab t1 = resetVocab t2.
Proof.
  intros (Hl & He & Hs). unfold resetVocab, with_vocab. by rewrite Hl, He, Hs.
Qed.

(** X1. [resetVocab] forgets everything but the options: whatever the calls
    before it, [load] included, it leaves the tokenizer that the constructor
    builds from the same options.  So resetting twice is resetting once, and
    [train] without [append] does not depend on the vocabulary it finds. *)
Theorem resetVocab_forgets (t : Tokenizer) :
  resetVocab t = new_Tokenizer (lowercase t) (specialTokens t) (learnOnEncode t)
  ∧ resetVocab (resetVocab t) = resetVocab t
  ∧ ∀ t2 text maxVocab,
      same_options t t2 →
      train t text maxVocab false = train t2 text maxVocab false.
Proof.
  split; [reflexivity|]. split.
  - symmetry. apply resetVocab_by_options, resetVocab_same_options.
  - intros t2 text maxVocab Hopt. unfold train.
    by rewrite (resetVocab_by_options t t2 Hopt).
Qed.

Lemma resetVocab_forgets_witness :
  same_options (encode default_Tokenizer "Hello world" true true).2
    default_Tokenizer
  ∧ train (encode default_Tokenizer "Hello world" true true).2 "a b" None false
    = train default_Tokenizer "a b" None false.
Proof.
  assert (H : same_options (encode default_Tokenizer "Hello world" true true).2
                default_Tokenizer) by (vm_compute; done).
  split; [exact H|].
  exact (proj2 (proj2 (resetVocab_forgets _)) default_Tokenizer "a b" None H).
Defined.

(** *** The ids of the special tokens *)

(** X2. With four distinct special strings, [resetVocab] (and so the
    constructor) gives them the ids 0, 1, 2 and 3 in the order [PAD], [UNK],
    [BOS], [EOS], records these under the four names, and leaves nothing
    else in the vocabulary. *)
Theorem resetVocab_ids (t : Tokenizer) :
  NoDup (special_values (specialTokens t)) →
  let s := specialTokens t in
  tokenToId (resetVocab t)
  = <[EOS s := 3]> (<[BOS s := 2]> (<[UNK s := 1]> (<[PAD s := 0]> ∅)))
  ∧ idToToken (resetVocab t)
    = <[pretty 3 := EOS s]> (<[pretty 2 := BOS s]>
        (<[pretty 1 := UNK s]> (<[pretty 0 := PAD s]> ∅)))
  ∧ specialTokenIds (resetVocab t)
    = <["EOS" := Num 3]> (<["BOS" := Num 2]>
        (<["UNK" := Num 1]> (<["PAD" := Num 0]> ∅)))
  ∧ vocabSize (resetVocab t) = 4
  ∧ tokenToId_proto (resetVocab t) = false.
Proof.
  intros Hnd. cbv zeta. unfold special_values in Hnd.
  apply NoDup_cons in Hnd as [H1 Hnd]. apply NoDup_cons in Hnd as [H2 Hnd].
  apply NoDup_cons in Hnd as [H3 _].
  assert (PAD (specialTokens t) ≠ UNK (specialTokens t)
          ∧ PAD (specialTokens t) ≠ BOS (specialTokens t)
          ∧ PAD (specialTokens t) ≠ EOS (specialTokens t)
          ∧ UNK (specialTokens t) ≠ BOS (specialTokens t)
          ∧ UNK (specialTokens t) ≠ EOS (specialTokens t)
          ∧ BOS (specialTokens t) ≠ EOS (specialTokens t))
    as (? & ? & ? & ? & ? & ?) by (clear -H1 H2 H3; set_solver).
  unfold resetVocab, special_entries. cbn [foldl].
  rewrite (reserve_fresh _ ("PAD", _)) by (done || apply lookup_empty).
  rewrite (reserve_fresh _ ("UNK", _))
    by (done || (cbn; by rewrite lookup_insert_ne)).
  rewrite (reserve_fresh _ ("BOS", _))
    by (done || (cbn; by rewrite !lookup_insert_ne)).
  rewrite (reserve_fresh _ ("EOS", _))
    by (done || (cbn; by rewrite !lookup_insert_ne)).
  done.
Qed.

Lemma resetVocab_ids_witness :
  NoDup (special_values (specialTokens default_Tokenizer))
  ∧ vocabSize (resetVocab default_Tokenizer) = 4.
Proof.
  assert (Hnd : NoDup (special_values (specialTokens default_Tokenizer))).
  { vm_compute. repeat constructor; set_solver. }
  split; [exact Hnd|].
  exact (proj1 (proj2 (proj2 (proj2 (resetVocab_ids default_Tokenizer Hnd))))).
Defined.

Lemma addToken_specialTokenIds (tok : string) (t : Tokenizer) :
  specialTokenIds (_addToken tok t).2 = specialTokenIds t.
Proof. by destruct (addToken_cases tok t) as [(_ & _ & ->)|[_ ->]]. Qed.

Lemma addToken_proto (tok : string) (t : Tokenizer) :
  tokenToId_proto t = false → tokenToId_proto (_addToken tok t).2 = false.
Proof. intros H. by rewrite (proj2 (proj2 (proj2 (addToken_config tok t)))). Qed.

(** On a map without prototype [_addToken] returns the id that the token
    has afterwards. *)
Lemma addToken_returns (tok : string) (t : Tokenizer) :
  tokenToId_proto t = false →
  ∃ id, (_addToken tok t).1 = Num id
        ∧ tokenToId (_addToken tok t).2 !! tok = Some id.
Proof.
  intros Hproto.
  destruct (addToken_cases tok t) as [(_ & _ & ->)|[Hget ->]]; simpl.
  - exists (vocabSize t). by rewrite lookup_insert_eq.
  - destruct (tokenToId t !! tok) as [id|] eqn:Htok.
    + exists id. by rewrite (tokenToId_get_own t tok id Htok).
    + by rewrite (tokenToId_get_null_proto t tok Hproto Htok) in Hget.
Qed.

Lemma special_entries_cases (s : SpecialTokens) (e : string * string) :
  e ∈ special_entries s →
  e = ("PAD", PAD s) ∨ e = ("UNK", UNK s)
  ∨ e = ("BOS", BOS s) ∨ e = ("EOS", EOS s).
Proof.
  unfold special_entries. rewrite !elem_of_cons, elem_of_nil. tauto.
Qed.

Lemma special_entries_key (s : SpecialTokens) (e e' : string * string) :
  e ∈ special_entries s → e' ∈ special_entries s → e.1 = e'.1 → e = e'.
Proof.
  intros He%special_entries_cases He'%special_entries_cases Hk.
  destruct He as [-> | [-> | [-> | ->]]], He' as [-> | [-> | [-> | ->]]];
    simpl in Hk; congruence.
Qed.

Lemma reserving_reserve (s : SpecialTokens) (n : Z) (t : Tokenizer)
    (e : string * string) :
  e ∈ special_entries s → reserving s n t → reserving s (n + 1) (reserve t e).
Proof.
  intros He (Hdense & Hproto & Hs & Hsize & Hreg). unfold reserve.
  pose proof (dense_addToken e.2 t Hdense) as Hdense'.
  pose proof (addToken_proto e.2 t Hproto) as Hproto'.
  pose proof (addToken_vocabSize e.2 t) as Hvs.
  pose proof (addToken_specialTokenIds e.2 t) as Hsp.
  destruct (addToken_config e.2 t) as (Hcfg & _).
  destruct (addToken_returns e.2 t Hproto) as (id & Hid & Htok).
  pose proof (λ k v, addToken_keeps e.2 t k v) as Hkeep.
  destruct (_addToken e.2 t) as [v t']. simpl in *. subst v.
  split; [by apply dense_specialTokenIds|]. split; [done|].
  split; [cbn; congruence|]. split; [cbn; lia|].
  cbn [specialTokenIds tokenToId with_vocab]. intros e' Hsome He'. destruct (decide (e'.1 = e.1)) as [Hk|Hk].
  - rewrite (special_entries_key s e' e He' He Hk).
    exists id. rewrite lookup_insert_eq. split; [done|]. split; [done|].
    apply (dense_forth _ Hdense') in Htok. lia.
  - rewrite lookup_insert_ne in Hsome |- * by done. rewrite Hsp in Hsome |- *.
    destruct (Hreg e' Hsome He') as (id' & ? & ? & ?).
    exists id'. split; [done|]. split; [by apply Hkeep|lia].
Qed.

Lemma resetVocab_registered (t : Tokenizer) :
  tokenToId_proto (resetVocab t) = false ∧ registered (resetVocab t).
Proof.
  unfold resetVocab, special_entries.
  set (s := specialTokens t).
  assert (reserving s 0 (with_vocab t false ∅ ∅ 0 ∅)) as H0.
  { split; [apply dense_empty|]. repeat split; try done.
    intros e [? Hsome]. cbn in Hsome. by rewrite lookup_empty in Hsome. }
  assert (∀ e, e ∈ special_entries s → e ∈ special_entries s) as Hin by done.
  unfold special_entries in Hin at 1.
  apply (reserving_reserve s _ _ ("PAD", PAD s)) in H0; [|apply Hin; set_solver].
  apply (reserving_reserve s _ _ ("UNK", UNK s)) in H0; [|apply Hin; set_solver].
  apply (reserving_reserve s _ _ ("BOS", BOS s)) in H0; [|apply Hin; set_solver].
  apply (reserving_reserve s _ _ ("EOS", EOS s)) in H0; [|apply Hin; set_solver].
  cbn [foldl]. destruct H0 as (_ & Hproto & Hs & _ & Hreg).
  split; [done|]. intros e He. rewrite Hs in He. apply Hreg; [|done].
  assert (∀ t0 e0, is_Some (specialTokenIds (reserve t0 e0) !! e0.1)) as Hset.
  { intros t0 e0. unfold reserve. destruct (_addToken e0.2 t0). simpl.
    by rewrite lookup_insert_eq. }
  assert (∀ t0 e0 k, is_Some (specialTokenIds t0 !! k) →
                     is_Some (specialTokenIds (reserve t0 e0) !! k)) as Hkeep.
  { intros t0 e0 k Hk. unfold reserve.
    pose proof (addToken_specialTokenIds e0.2 t0) as Hsp.
    destruct (_addToken e0.2 t0). simpl in *.
    rewrite lookup_insert. case_decide; [done|]. by rewrite Hsp. }
  apply special_entries_cases in He.
  destruct He as [-> | [-> | [-> | ->]]]; cbn [fst];
    repeat first [apply (Hset _ (_, _)) | apply Hkeep].
Qed.

Lemma registered_addToken (tok : string) (t : Tokenizer) :
  tokenToId_proto t = false ∧ registered t →
  tokenToId_proto (_addToken tok t).2 = false ∧ registered (_addToken tok t).2.
Proof.
  intros [Hproto Hreg]. split; [by apply addToken_proto|].
  intros e He. rewrite (proj1 (addToken_config tok t)) in He.
  destruct (Hreg e He) as (id & Hsp & Htok & Hid). exists id.
  rewrite addToken_specialTokenIds. split; [done|].
  split; [by apply addToken_keeps|done].
Qed.

Lemma gapless_addToken (tok : string) (t : Tokenizer) :
  gapless t → gapless (_addToken tok t).2.
Proof.
  intros Hgap id.
  destruct (addToken_cases tok t) as [(_ & _ & ->)|[_ ->]]; [|apply Hgap].
  simpl. intros Hid. rewrite lookup_insert. case_decide; [done|].
  apply Hgap. assert (id ≠ vocabSize t) by congruence. lia.
Qed.

Lemma gapless_resetVocab (t : Tokenizer) : gapless (resetVocab t).
Proof.
  apply (resetVocab_preserves gapless); [apply gapless_addToken|done|].
  intros id. simpl. lia.
Qed.

(** What holds of every tokenizer that calls other than [load] lead to. *)
Lemma reachable_wellformed (t : Tokenizer) :
  reachable false t →
  dense t ∧ gapless t ∧ tokenToId_proto t = false ∧ registered t.
Proof.
  intros Hreach.
  split; [by apply (reachable_preserves _ dense_addToken dense_resetVocab)|].
  split; [by apply (reachable_preserves _ gapless_addToken gapless_resetVocab)|].
  by apply (reachable_preserves _ registered_addToken resetVocab_registered).
Qed.

(** X3. In every tokenizer that calls other than [load] lead to, each of the
    names [PAD], [UNK], [BOS] and [EOS] has in [specialTokenIds] the id, one
    of 0 to 3, under which the two maps hold the string of that name; and
    [tokenToId] is a map without prototype. *)
Theorem reachable_registered (t : Tokenizer) :
  reachable false t →
  tokenToId_proto t = false
  ∧ ∀ e, e ∈ special_entries (specialTokens t) →
         ∃ id, specialTokenIds_get t e.1 = Num id
               ∧ tokenToId t !! e.2 = Some id
               ∧ idToToken t !! pretty id = Some e.2
               ∧ 0 ≤ id < 4.
Proof.
  intros (Hdense & _ & Hproto & Hreg)%reachable_wellformed.
  split; [done|]. intros e He. destruct (Hreg e He) as (id & Hsp & Htok & Hid).
  exists id. unfold specialTokenIds_get. rewrite Hsp.
  split; [done|]. split; [done|]. split; [|done].
  by apply (dense_forth _ Hdense).
Qed.

Lemma reachable_registered_witness :
  reachable false (train default_Tokenizer "to be or not to be" (Some 3) true)
  ∧ tokenToId_proto (train default_Tokenizer "to be or not to be" (Some 3) true)
    = false.
Proof.
  assert (H : reachable false
                (train default_Tokenizer "to be or not to be" (Some 3) true))
    by (apply reach_train, reach_new).
  split; [exact H|]. exact (proj1 (reachable_registered _ H)).
Defined.

(** X4. In every tokenizer that calls other than [load] lead to, the ids in
    use are exactly the integers from 0 to [vocabSize - 1]: none is skipped
    and none lies outside. *)
Theorem reachable_ids_dense (t : Tokenizer) (id : Z) :
  reachable false t →
  (0 ≤ id < vocabSize t ↔ ∃ tok, tokenToId t !! tok = Some id)
  ∧ (0 ≤ id < vocabSize t ↔ is_Some (idToToken t !! pretty id)).
Proof.
  intros (Hdense & Hgap & _)%reachable_wellformed.
  assert (is_Some (idToToken t !! pretty id) →
          ∃ tok, tokenToId t !! tok = Some id) as Hback.
  { intros [tok Htok].
    destruct (dense_back _ Hdense _ _ Htok) as (id' & Heq%(inj pretty) & ?).
    subst id'. by exists tok. }
  split; split.
  - intros Hid. by apply Hback, Hgap.
  - intros [tok Htok]. by destruct (dense_forth _ Hdense _ _ Htok).
  - apply Hgap.
  - intros [tok Htok]%Hback. by destruct (dense_forth _ Hdense _ _ Htok).
Qed.

Lemma reachable_ids_dense_witness :
  reachable false (encode default_Tokenizer "Hello world" true true).2
  ∧ (0 ≤ 5 < vocabSize (encode default_Tokenizer "Hello world" true true).2
     ↔ ∃ tok, tokenToId (encode default_Tokenizer "Hello world" true true).2
                !! tok = Some 5).
Proof.
  assert (H : reachable false
                (encode default_Tokenizer "Hello world" true true).2)
    by (apply reach_encode, reach_new).
  split; [exact H|]. exact (proj1 (reachable_ids_dense _ 5 H)).
Defined.

(** ** encode, once more *)

Lemma addToken_get_defined (y : string) (t : Tokenizer) (x : string) :
  tokenToId_get t x ≠ Undefined →
  tokenToId_get (_addToken y t).2 x = tokenToId_get t x.
Proof.
  intros Hx. destruct (addToken_cases y t) as [(Hy & _ & ->)|[_ ->]]; [|done].
  unfold tokenToId_get. simpl. rewrite lookup_insert_ne; [done|]. congruence.
Qed.

Lemma addToken_get_added (x : string) (t : Tokenizer) :
  tokenToId_get (_addToken x t).2 x = (_addToken x t).1
  ∧ (_addToken x t).1 ≠ Undefined.
Proof.
  destruct (addToken_cases x t) as [(_ & _ & ->)|[? ->]]; [|done].
  unfold tokenToId_get. simpl. by rewrite lookup_insert_eq.
Qed.

Lemma encode_loop_get_defined (l : list string) (t : Tokenizer) (x : string) :
  tokenToId_get t x ≠ Undefined →
  tokenToId_get (encode_loop l t).2 x = tokenToId_get t x.
Proof.
  intros Hx.
  apply (encode_loop_preserves (λ t', tokenToId_get t' x = tokenToId_get t x));
    [|done].
  intros y t' Ht'. rewrite <- Ht'. apply addToken_get_defined. congruence.
Qed.

Lemma encode_loop_learnOnEncode (l : list string) (t : Tokenizer) :
  same_options t (encode_loop l t).2
  ∧ specialTokenIds (encode_loop l t).2 = specialTokenIds t.
Proof.
  apply (encode_loop_preserves
           (λ t', same_options t t' ∧ specialTokenIds t' = specialTokenIds t));
    [|done].
  intros y t' [Hopt Hsp]. split; [by apply addToken_same_options|].
  by rewrite addToken_specialTokenIds.
Qed.

(** When every token has an id already, the loop pushes these ids and adds
    nothing. *)
Lemma encode_loop_known (l : list string) (t : Tokenizer) :
  (∀ x, x ∈ l → tokenToId_get t x ≠ Undefined) →
  encode_loop l t = (tokenToId_get t <$> l, t).
Proof.
  induction l as [|x l IH]; intros Hl; [done|].
  rewrite encode_loop_cons. cbv zeta.
  assert (tokenToId_get t x ≠ Undefined) as Hx by (apply Hl; set_solver).
  destruct (tokenToId_get t x) eqn:Hget; [done|..]; cbn [fst snd];
    rewrite IH by (intros; apply Hl; set_solver); by rewrite fmap_cons, Hget.
Qed.

(** With [learnOnEncode], the loop pushes for each token the id that the
    vocabulary has for it in the end. *)
Lemma encode_loop_learnt (l : list string) (t : Tokenizer) :
  learnOnEncode t = true →
  (encode_loop l t).1 = tokenToId_get (encode_loop l t).2 <$> l
  ∧ ∀ x, x ∈ l → tokenToId_get (encode_loop l t).2 x ≠ Undefined.
Proof.
  revert t. induction l as [|x l IH]; intros t Hlearn.
  - split; [done|]. by intros x ?%elem_of_nil.
  - rewrite encode_loop_cons. cbv zeta. cbn [fst snd]. rewrite Hlearn.
    set (step := match tokenToId_get t x with
                 | Undefined => _addToken x t
                 | v => (v, t) end).
    assert (tokenToId_get step.2 x = step.1 ∧ step.1 ≠ Undefined
            ∧ learnOnEncode step.2 = true) as (Hx & Hdef & Hlearn').
    { subst step. destruct (tokenToId_get t x) eqn:Hget; try done.
      destruct (addToken_get_added x t) as [? ?].
      by rewrite (proj1 (proj2 (proj2 (addToken_config x t)))). }
    destruct (IH step.2 Hlearn') as [Hids Hall].
    assert (tokenToId_get (encode_loop l step.2).2 x = step.1) as Hx'.
    { rewrite encode_loop_get_defined; [done|congruence]. }
    split.
    + by rewrite fmap_cons, Hx', Hids.
    + intros y [->|Hy]%elem_of_cons; [congruence|by apply Hall].
Qed.

(** Without [learnOnEncode] the loop leaves the tokenizer as it is. *)
Lemma encode_loop_frozen (l : list string) (t : Tokenizer) :
  learnOnEncode t = false →
  encode_loop l t
  = ((λ x, match tokenToId_get t x with
           | Undefined => specialTokenIds_get t "UNK"
           | v => v
           end) <$> l, t).
Proof.
  intros Hlearn. induction l as [|x l IH]; [done|].
  rewrite encode_loop_cons. cbv zeta. rewrite Hlearn.
  rewrite fmap_cons.
  by destruct (tokenToId_get t x); cbn [fst snd]; rewrite IH.
Qed.

Lemma encode_split (t : Tokenizer) (text : string) (addBOS addEOS : bool) :
  text ≠ "" →
  encode t text addBOS addEOS
  = ((if addBOS then [specialTokenIds_get t "BOS"] else [])
     ++ (encode_loop (tokens_of t text) t).1
     ++ (if addEOS
         then [specialTokenIds_get (encode_loop (tokens_of t text) t).2 "EOS"]
         else []),
     (encode_loop (tokens_of t text) t).2).
Proof.
  intros Hne. unfold encode. destruct text; [done|].
  by destruct (encode_loop _ t).
Qed.

Lemma tokens_of_same_options (t t' : Tokenizer) (text : string) :
  same_options t t' → tokens_of t' text = tokens_of t text.
Proof. intros (Hl & _). unfold tokens_of. by rewrite Hl. Qed.


Lemma encode_loop_ids_below (l : list string) (t : Tokenizer) :
  vocabSize t ≤ vocabSize (encode_loop l t).2
  ∧ ∀ k, k < vocabSize t →
         idToToken (encode_loop l t).2 !! pretty k = idToToken t !! pretty k.
Proof.
  apply (encode_loop_preserves
           (λ t', vocabSize t ≤ vocabSize t'
                  ∧ ∀ k, k < vocabSize t →
                         idToToken t' !! pretty k = idToToken t !! pretty k));
    [|done].
  intros y t' [Hle Hids]. pose proof (addToken_vocabSize y t'). split; [lia|].
  intros k Hk. rewrite <- Hids by done.
  destruct (addToken_cases y t') as [(_ & _ & ->)|[_ ->]]; [|done].
  simpl. apply lookup_insert_ne. intros ?%(inj pretty). lia.
Qed.

Lemma encode_loop_added (l : list string) (t : Tokenizer) :
  tokenToId_proto t = false → learnOnEncode t = true →
  vocabSize (encode_loop l t).2
  = vocabSize t
    + Z.of_nat (length (unseen_in_order (dom (tokenToId t)) l))
  ∧ ∀ (i : nat) tok,
      unseen_in_order (dom (tokenToId t)) l !! i = Some tok →
      idToToken (encode_loop l t).2 !! pretty (vocabSize t + Z.of_nat i)
      = Some tok.
Proof.
  revert t. induction l as [|x l IH]; intros t Hproto Hlearn.
  - split; [simpl; lia|]. intros i tok. cbn [unseen_in_order].
    by rewrite lookup_nil.
  - rewrite encode_loop_cons. cbv zeta. cbn [snd unseen_in_order].
    destruct (tokenToId t !! x) as [id|] eqn:Hx.
    + rewrite (tokenToId_get_own t x id Hx). cbn [snd].
      rewrite decide_True by (by apply elem_of_dom_2 in Hx). by apply IH.
    + rewrite (tokenToId_get_null_proto t x Hproto Hx), Hlearn.
      rewrite decide_False by (by apply not_elem_of_dom).
      destruct (addToken_cases x t) as [(_ & _ & Hadd)|[Hget _]];
        [|by rewrite (tokenToId_get_null_proto t x Hproto Hx) in Hget].
      rewrite Hadd. cbn [snd].
      set (t1 := with_vocab t (tokenToId_proto t)
                   (<[x := vocabSize t]> (tokenToId t))
                   (<[pretty (vocabSize t) := x]> (idToToken t))
                   (vocabSize t + 1) (specialTokenIds t)).
      destruct (IH t1 Hproto Hlearn) as [Hsize Hids].
      destruct (encode_loop_ids_below l t1) as [_ Hbelow].
      assert (dom (tokenToId t1) = {[x]} ∪ dom (tokenToId t)) as Hdom
        by apply dom_insert_L.
      rewrite Hdom in Hsize, Hids. split.
      * rewrite Hsize. cbn [length vocabSize with_vocab t1]. lia.
      * intros [|i] tok; cbn [lookup list_lookup].
        -- intros [= ->]. rewrite Hbelow by (simpl; lia).
           replace (vocabSize t + Z.of_nat 0) with (vocabSize t) by lia.
           apply lookup_insert_eq.
        -- intros Hi. specialize (Hids i tok Hi). simpl in Hids.
           by replace (vocabSize t + Z.of_nat (S i))
             with (vocabSize t + 1 + Z.of_nat i) by lia.
Qed.

Lemma unseen_in_order_spec (seen : gset string) (l : list string) :
  NoDup (unseen_in_order seen l)
  ∧ ∀ x, x ∈ unseen_in_order seen l ↔ x ∈ l ∧ x ∉ seen.
Proof.
  revert seen. induction l as [|y l IH]; intros seen; cbn [unseen_in_order].
  { split; [constructor|]. intros x. rewrite elem_of_nil. tauto. }
  destruct (decide (y ∈ seen)) as [Hy|Hy].
  - destruct (IH seen) as [Hnd Hin]. split; [done|]. intros x.
    rewrite Hin, elem_of_cons. clear IH Hin. split; [tauto|].
    intros [[->|?] ?]; tauto.
  - destruct (IH ({[y]} ∪ seen)) as [Hnd Hin]. split.
    + constructor; [|done]. rewrite Hin. clear. set_solver.
    + intros x. rewrite !elem_of_cons, Hin. clear IH Hin Hnd.
      destruct (decide (x = y)) as [->|Hne]; [tauto|]. set_solver.
Qed.

Lemma encode_loop_added_ids (l : list string) (t : Tokenizer) (i : nat)
    (tok : string) :
  tokenToId_proto t = false → learnOnEncode t = true →
  unseen_in_order (dom (tokenToId t)) l !! i = Some tok →
  tokenToId (encode_loop l t).2 !! tok = Some (vocabSize t + Z.of_nat i).
Proof.
  revert t i. induction l as [|x l IH]; intros t i Hproto Hlearn.
  { cbn [unseen_in_order]. by rewrite lookup_nil. }
  rewrite encode_loop_cons. cbv zeta. cbn [snd unseen_in_order].
  destruct (tokenToId t !! x) as [id|] eqn:Hx.
  - rewrite (tokenToId_get_own t x id Hx). cbn [snd].
    rewrite decide_True by (by apply elem_of_dom_2 in Hx). by apply IH.
  - rewrite (tokenToId_get_null_proto t x Hproto Hx), Hlearn.
    rewrite decide_False by (by apply not_elem_of_dom).
    destruct (addToken_cases x t) as [(_ & _ & Hadd)|[Hget _]];
      [|by rewrite (tokenToId_get_null_proto t x Hproto Hx) in Hget].
    rewrite Hadd. cbn [snd].
    set (t1 := with_vocab t (tokenToId_proto t)
                 (<[x := vocabSize t]> (tokenToId t))
                 (<[pretty (vocabSize t) := x]> (idToToken t))
                 (vocabSize t + 1) (specialTokenIds t)).
    assert (dom (tokenToId t1) = {[x]} ∪ dom (tokenToId t)) as Hdom
      by apply dom_insert_L.
    destruct i as [|i]; cbn [lookup list_lookup].
    + intros [= ->]. apply encode_loop_keeps. simpl.
      replace (vocabSize t + Z.of_nat 0) with (vocabSize t) by lia.
      apply lookup_insert_eq.
    + intros Hi. rewrite <- Hdom in Hi.
      rewrite (IH t1 i Hproto Hlearn Hi). simpl. f_equal. lia.
Qed.

(** X6. With [learnOnEncode], on a [tokenToId] without prototype, [encode]
    adds the tokens of the text that had no id, each once, in the order of
    their first occurrence, and gives them the consecutive ids from the old
    [vocabSize] on: [vocabSize] grows by their number, and the token at
    place [i] among them has the id [vocabSize + i] in both maps. *)
Theorem encode_adds_in_order (t : Tokenizer) (text : string)
    (addBOS addEOS : bool) :
  tokenToId_proto t = false → learnOnEncode t = true →
  let t' := (encode t text addBOS addEOS).2 in
  let added := unseen_in_order (dom (tokenToId t)) (tokens_of t text) in
  added_between t t' = added
  ∧ NoDup added
  ∧ (∀ tok, tok ∈ added ↔ tok ∈ tokens_of t text ∧ tokenToId t !! tok = None)
  ∧ vocabSize t' = vocabSize t + Z.of_nat (length added)
  ∧ ∀ (i : nat) tok,
      added !! i = Some tok →
      tokenToId t' !! tok = Some (vocabSize t + Z.of_nat i)
      ∧ idToToken t' !! pretty (vocabSize t + Z.of_nat i) = Some tok.
Proof.
  intros Hproto Hlearn. cbv zeta.
  assert ((encode t text addBOS addEOS).2 = (encode_loop (tokens_of t text) t).2)
    as ->.
  { destruct (decide (text = "")) as [->|Hne].
    - unfold tokens_of. by destruct (lowercase t).
    - by rewrite encode_split. }
  destruct (encode_loop_added (tokens_of t text) t Hproto Hlearn) as [Hsize Hids].
  destruct (unseen_in_order_spec (dom (tokenToId t)) (tokens_of t text))
    as [Hnd Hin].
  split; [|split; [done|split; [|split; [done|]]]].
  - unfold added_between. rewrite Hsize.
    replace (Z.to_nat _)
      with (length (unseen_in_order (dom (tokenToId t)) (tokens_of t text)))
      by lia.
    apply omap_seq_lookup. intros i x Hi. simpl. by apply Hids.
  - intros tok. by rewrite Hin, not_elem_of_dom.
  - intros i tok Hi. split; [by apply encode_loop_added_ids|by apply Hids].
Qed.

Lemma encode_adds_in_order_witness :
  tokenToId_proto default_Tokenizer = false
  ∧ learnOnEncode default_Tokenizer = true
  ∧ added_between default_Tokenizer
      (encode default_Tokenizer "to be or not to be" false false).2
    = unseen_in_order (dom (tokenToId default_Tokenizer))
        (tokens_of default_Tokenizer "to be or not to be")
  ∧ vocabSize (encode default_Tokenizer "to be or not to be" false false).2
    = vocabSize default_Tokenizer
      + Z.of_nat (length (unseen_in_order (dom (tokenToId default_Tokenizer))
                            (tokens_of default_Tokenizer "to be or not to be"))).
Proof.
  split; [reflexivity|]. split; [reflexivity|].
  pose proof (encode_adds_in_order default_Tokenizer "to be or not to be"
                false false eq_refl eq_refl) as H.
  cbv zeta in H. split; [exact (proj1 H)|].
  exact (proj1 (proj2 (proj2 (proj2 H)))).
Defined.

(** ** encode, then decode *)

Lemma fmap_ext_in {A B} (f g : A → B) (l : list A) :
  (∀ x, x ∈ l → f x = g x) → f <$> l = g <$> l.
Proof. intros H. apply Forall_fmap_ext, Forall_forall, H. Qed.

Lemma decode_tokens_app (t : Tokenizer) (l1 l2 : list Z) :
  decode_tokens t (l1 ++ l2) = decode_tokens t l1 ++ decode_tokens t l2.
Proof. unfold decode_tokens. apply fmap_app. Qed.

Lemma filter_special_framed (s : SpecialTokens) (addBOS addEOS : bool)
    (l : list string) :
  filter (λ tok, tok ∉ special_values s) (framed addBOS addEOS (BOS s) (EOS s) l)
  = filter (λ tok, tok ∉ special_values s) l.
Proof.
  unfold framed. rewrite !filter_app.
  assert (∀ (b : bool) x, x ∈ special_values s →
            filter (λ tok, tok ∉ special_values s) (if b then [x] else []) = [])
    as Hdrop.
  { intros [] x Hx; [|done]. by rewrite filter_cons_False by tauto. }
  rewrite !Hdrop by (unfold special_values; set_solver).
  by rewrite app_nil_r.
Qed.

(** The ids that [encode] returns, where no call of [load] came before and
    with [learnOnEncode], against the tokens of the text. *)
Lemma encode_ids_tokens (t : Tokenizer) (text : string)
    (addBOS addEOS : bool) :
  reachable false t → learnOnEncode t = true →
  let t' := (encode t text addBOS addEOS).2 in
  let s := specialTokens t in
  ∃ ids : list Z,
    (encode t text addBOS addEOS).1 = Num <$> ids
    ∧ (∀ id, id ∈ ids → 0 ≤ id < vocabSize t')
    ∧ (text ≠ "" →
       decode_tokens t' ids
       = framed addBOS addEOS (BOS s) (EOS s) (tokens_of t text))
    ∧ decode t' ids true
      = despace (join_sp (filter (λ tok, tok ∉ special_values s)
                                 (tokens_of t text))).
Proof.
  intros Hreach Hlearn. cbv zeta.
  destruct (decide (text = "")) as [->|Hne].
  { exists []. split; [done|]. split; [by intros id ?%elem_of_nil|].
    split; [done|]. unfold tokens_of. by destruct (lowercase t). }
  pose proof (reach_encode false t text addBOS addEOS Hreach) as Hreach'.
  apply reachable_wellformed in Hreach' as (Hdense & _ & Hproto & Hreg).
  revert Hdense Hproto Hreg. rewrite encode_split by done. cbn [fst snd].
  set (tokens := tokens_of t text). set (t' := (encode_loop tokens t).2).
  intros Hdense Hproto Hreg.
  destruct (encode_loop_learnOnEncode tokens t) as [(_ & _ & Hs) Hsp].
  fold t' in Hs, Hsp.
  destruct (encode_loop_learnt tokens t Hlearn) as [Hids Hall]. fold t' in Hids, Hall.
  assert (∀ x, x ∈ tokens →
               ∃ id, tokenToId_get t' x = Num id ∧ tokenToId t' !! x = Some id)
    as Hown.
  { intros x Hx. specialize (Hall x Hx).
    destruct (tokenToId t' !! x) as [id|] eqn:Htok.
    - exists id. by rewrite (tokenToId_get_own t' x id Htok).
    - by rewrite (tokenToId_get_null_proto t' x Hproto Htok) in Hall. }
  destruct (Hreg ("BOS", BOS (specialTokens t'))) as (idb & Hb1 & Hb2 & _);
    [unfold special_entries; set_solver|].
  destruct (Hreg ("EOS", EOS (specialTokens t'))) as (ide & He1 & He2 & _);
    [unfold special_entries; set_solver|].
  cbn [fst snd] in Hb1, Hb2, He1, He2. rewrite <- Hs in Hb2, He2.
  set (num := λ x, default 0 (tokenToId t' !! x)).
  exists (framed addBOS addEOS idb ide (num <$> tokens)).
  assert (decode_tokens t' (framed addBOS addEOS idb ide (num <$> tokens))
          = framed addBOS addEOS (BOS (specialTokens t))
              (EOS (specialTokens t)) tokens) as Hdec.
  { unfold framed. rewrite !decode_tokens_app. f_equal; [|f_equal].
    - destruct addBOS; [|done]. unfold decode_tokens. simpl.
      by rewrite (proj2 (dense_forth _ Hdense _ _ Hb2)).
    - unfold decode_tokens. rewrite <- list_fmap_compose.
      rewrite <- (list_fmap_id tokens) at 2. apply fmap_ext_in.
      intros x Hx. destruct (Hown x Hx) as (id & _ & Htok). simpl.
      unfold num. rewrite Htok. simpl.
      by rewrite (proj2 (dense_forth _ Hdense _ _ Htok)).
    - destruct addEOS; [|done]. unfold decode_tokens. simpl.
      by rewrite (proj2 (dense_forth _ Hdense _ _ He2)). }
  split; [|split; [|split]].
  - unfold framed. rewrite !fmap_app, Hids. f_equal; [|f_equal].
    + destruct addBOS; [|done]. unfold specialTokenIds_get.
      by rewrite <- Hsp, Hb1.
    + rewrite <- list_fmap_compose. apply fmap_ext_in.
      intros x Hx. destruct (Hown x Hx) as (id & -> & Htok). simpl.
      unfold num. by rewrite Htok.
    + destruct addEOS; [|done]. unfold specialTokenIds_get. by rewrite He1.
  - unfold framed. intros id. rewrite !elem_of_app.
    intros [Hid|[Hid|Hid]].
    + destruct addBOS; [|by apply elem_of_nil in Hid].
      apply list_elem_of_singleton in Hid as ->.
      by destruct (dense_forth _ Hdense _ _ Hb2).
    + apply list_elem_of_fmap in Hid as (x & -> & Hx).
      destruct (Hown x Hx) as (id & _ & Htok). unfold num. rewrite Htok.
      by destruct (dense_forth _ Hdense _ _ Htok).
    + destruct addEOS; [|by apply elem_of_nil in Hid].
      apply list_elem_of_singleton in Hid as ->.
      by destruct (dense_forth _ Hdense _ _ He2).
  - done.
  - unfold decode. rewrite Hdec, Hs. by rewrite filter_special_framed.
Qed.

(** X7. On a tokenizer that calls other than [load] lead to, with
    [learnOnEncode]: the ids [encode] returns are numbers below
    [vocabSize]; looked up again they are the tokens of the text between the
    strings of the markers asked for; and [decode] with [skipSpecial] turns
    them into the tokens of the text that are no special strings, joined and
    de-spaced, whether or not markers were asked for. *)
Theorem encode_decode_round_trip (t : Tokenizer) (text : string)
    (addBOS addEOS : bool) :
  reachable false t → learnOnEncode t = true →
  let t' := (encode t text addBOS addEOS).2 in
  let s := specialTokens t in
  ∃ ids : list Z,
    (encode t text addBOS addEOS).1 = Num <$> ids
    ∧ (∀ id, id ∈ ids → 0 ≤ id < vocabSize t')
    ∧ (text ≠ "" →
       decode_tokens t' ids
       = framed addBOS addEOS (BOS s) (EOS s) (tokens_of t text))
    ∧ decode t' ids true
      = despace (join_sp (filter (λ tok, tok ∉ special_values s)
                                 (tokens_of t text))).
Proof. apply encode_ids_tokens. Qed.

Lemma encode_decode_round_trip_witness :
  reachable false default_Tokenizer
  ∧ learnOnEncode default_Tokenizer = true
  ∧ ∃ ids : list Z,
      (encode default_Tokenizer "Good morning, all!" true true).1 = Num <$> ids
      ∧ decode (encode default_Tokenizer "Good morning, all!" true true).2
          ids true
        = "good morning, all!".
Proof.
  assert (H : reachable false default_Tokenizer) by apply reach_new.
  split; [exact H|]. split; [reflexivity|].
  destruct (encode_decode_round_trip default_Tokenizer "Good morning, all!"
              true true H eq_refl) as (ids & Hids & _ & _ & Hdec).
  exists ids. split; [exact Hids|]. exact Hdec.
Defined.

(** X8. Without [learnOnEncode], [encode] never changes the tokenizer; on a
    tokenizer that calls other than [load] lead to, it returns numbers
    that, looked up again, are the tokens of the text, with the string of
    [UNK] in the place of every token that has no id. *)
Theorem encode_without_learning (t : Tokenizer) (text : string)
    (addBOS addEOS : bool) :
  learnOnEncode t = false →
  (encode t text addBOS addEOS).2 = t
  ∧ (reachable false t →
     ∃ ids : list Z,
       (encode t text false false).1 = Num <$> ids
       ∧ decode_tokens t ids
         = (λ x, if decide (is_Some (tokenToId t !! x)) then x
                 else UNK (specialTokens t)) <$> tokens_of t text).
Proof.
  intros Hlearn. split.
  { destruct (decide (text = "")) as [->|Hne]; [done|].
    rewrite encode_split by done. cbn [snd].
    by rewrite encode_loop_frozen. }
  intros (Hdense & _ & Hproto & Hreg)%reachable_wellformed.
  destruct (Hreg ("UNK", UNK (specialTokens t))) as (idu & Hu1 & Hu2 & _);
    [unfold special_entries; set_solver|].
  cbn [fst snd] in Hu1, Hu2.
  set (num := λ x, default idu (tokenToId t !! x)).
  exists (num <$> tokens_of t text).
  assert ((encode t text false false).1
          = (encode_loop (tokens_of t text) t).1) as ->.
  { destruct (decide (text = "")) as [->|Hne].
    - unfold tokens_of. by destruct (lowercase t).
    - rewrite encode_split by done. cbn [fst]. by rewrite app_nil_r. }
  rewrite encode_loop_frozen by done. cbn [fst]. split.
  - rewrite <- list_fmap_compose. apply list_fmap_ext. intros _ x _. simpl.
    unfold num. destruct (tokenToId t !! x) as [id|] eqn:Htok.
    + by rewrite (tokenToId_get_own t x id Htok).
    + rewrite (tokenToId_get_null_proto t x Hproto Htok).
      unfold specialTokenIds_get. by rewrite Hu1.
  - unfold decode_tokens. rewrite <- list_fmap_compose. apply list_fmap_ext.
    intros _ x _. simpl. unfold num.
    destruct (tokenToId t !! x) as [id|] eqn:Htok; simpl.
    + by rewrite (proj2 (dense_forth _ Hdense _ _ Htok)).
    + by rewrite (proj2 (dense_forth _ Hdense _ _ Hu2)).
Qed.

Lemma encode_without_learning_witness :
  learnOnEncode (new_Tokenizer true default_specialTokens false) = false
  ∧ (encode (new_Tokenizer true default_specialTokens false)
       "Hello world" true true).2
    = new_Tokenizer true default_specialTokens false.
Proof.
  split; [reflexivity|].
  exact (proj1 (encode_without_learning
                  (new_Tokenizer true default_specialTokens false)
                  "Hello world" true true eq_refl)).
Defined.

(** ** _addToken, once more *)



(** ** train, once more *)

Lemma entries_elem_rev (f : table) (e : string * Z) : e ∈ f → e ∈ entries f.
Proof.
  unfold entries. rewrite elem_of_app, array_sort_perm, !list_elem_of_filter.
  destruct (decide (is_Some (array_index e.1))); tauto.
Qed.

(** The candidates of [train] are the tokens of the text. *)
Lemma sorted_entries_keys (tokens : list string) (k : string) :
  k ∈ (sorted_entries (count_tokens tokens)).*1 ↔ k ∈ tokens.
Proof.
  split.
  - intros (e & -> & He)%list_elem_of_fmap. by apply sorted_entries_spec.
  - intros Hk. destruct (count_tokens_spec tokens) as (_ & Hkeys & _).
    apply Hkeys, list_elem_of_fmap in Hk as (e & -> & He).
    apply list_elem_of_fmap. exists e. split; [done|].
    unfold sorted_entries. rewrite array_sort_perm. by apply entries_elem_rev.
Qed.

Lemma train_loop_get_defined maxVocab reserved (l : list string)
    (t : Tokenizer) (x : string) :
  tokenToId_get t x ≠ Undefined →
  tokenToId_get (train_loop maxVocab reserved l t) x = tokenToId_get t x.
Proof.
  intros Hx.
  apply (train_loop_preserves (λ t', tokenToId_get t' x = tokenToId_get t x));
    [|done].
  intros y t' Ht'. rewrite <- Ht'. apply addToken_get_defined. congruence.
Qed.

Lemma train_loop_unbounded maxVocab reserved (l : list string) (t : Tokenizer) :
  (∀ n, bound_reached maxVocab n = false) →
  ∀ x, x ∈ l → tokenToId_get (train_loop maxVocab reserved l t) x ≠ Undefined.
Proof.
  intros Hfree. revert t. induction l as [|y l IH]; intros t x Hx.
  - by apply elem_of_nil in Hx.
  - simpl. rewrite Hfree.
    set (t1 := match tokenToId_get t y with
               | Undefined => (_addToken y t).2
               | _ => t end).
    apply elem_of_cons in Hx as [->|Hx]; [|by apply IH].
    assert (tokenToId_get t1 y ≠ Undefined) as Hy.
    { subst t1. destruct (tokenToId_get t y) eqn:Hget; try congruence.
      destruct (addToken_get_added y t) as [-> ?]. done. }
    by rewrite train_loop_get_defined.
Qed.

Lemma train_same_options (t : Tokenizer) text maxVocab append :
  same_options t (train t text maxVocab append).
Proof.
  unfold train.
  assert (same_options t (if append then t else resetVocab t)) as H0
    by (destruct append; [done|apply resetVocab_same_options]).
  destruct text; [done|].
  apply (train_loop_preserves (same_options t)); [|done].
  apply addToken_same_options.
Qed.

Lemma resetVocab_proto (t : Tokenizer) : tokenToId_proto (resetVocab t) = false.
Proof.
  apply (resetVocab_preserves (λ t', tokenToId_proto t' = false));
    [apply addToken_proto|done..].
Qed.

Lemma train_proto (t : Tokenizer) text maxVocab append :
  tokenToId_proto (train t text maxVocab append)
  = if append then tokenToId_proto t else false.
Proof.
  unfold train.
  set (t0 := if append then t else resetVocab t).
  assert (tokenToId_proto t0 = if append then tokenToId_proto t else false)
    as <- by (subst t0; destruct append; [done|apply resetVocab_proto]).
  destruct text; [done|].
  apply (train_loop_preserves (λ t', tokenToId_proto t' = tokenToId_proto t0));
    [|done].
  intros tok t' <-. apply addToken_config.
Qed.

(** A read of [tokenToId] that is not [undefined] is an own id, or, on an
    object with a prototype, the inherited member of that name. *)
Lemma tokenToId_get_defined (t : Tokenizer) (x : string) :
  tokenToId_get t x ≠ Undefined →
  (∃ id, tokenToId t !! x = Some id ∧ tokenToId_get t x = Num id)
  ∨ (tokenToId_proto t = true ∧ x ∈ object_prototype_keys
     ∧ tokenToId t !! x = None ∧ tokenToId_get t x = Inherited x).
Proof.
  unfold tokenToId_get. destruct (tokenToId t !! x) as [id|]; [by eauto|].
  destruct (tokenToId_proto t); [|done]. simpl.
  destruct (bool_decide_reflect (x ∈ object_prototype_keys)); [|done].
  intros _. by right.
Qed.

(** X10. After [train] without a bound ([maxVocab] null or 0) the read of
    [tokenToId] is defined for every token of the text: it is the token's
    own id, or, only when the call appended to a [tokenToId] that has a
    prototype, the inherited member of that name, the token having no id.
    So when the call reset the vocabulary or [tokenToId] has no prototype,
    every token of the text has an id.  In either case [encode] of the same
    text afterwards returns these reads, between the markers asked for, and
    changes nothing. *)
Theorem train_then_encode (t : Tokenizer) (text : string)
    (maxVocab : option Z) (append : bool) :
  maxVocab = None ∨ maxVocab = Some 0 →
  let t' := train t text maxVocab append in
  (∀ x, x ∈ tokens_of t text →
     (∃ id, tokenToId t' !! x = Some id ∧ tokenToId_get t' x = Num id)
     ∨ (append = true ∧ tokenToId_proto t = true
        ∧ x ∈ object_prototype_keys
        ∧ tokenToId t' !! x = None ∧ tokenToId_get t' x = Inherited x))
  ∧ (append = false ∨ tokenToId_proto t = false →
     ∀ x, x ∈ tokens_of t text →
          ∃ id, tokenToId t' !! x = Some id ∧ tokenToId_get t' x = Num id)
  ∧ ∀ addBOS addEOS,
      encode t' text addBOS addEOS
      = (if decide (text = "") then []
         else framed addBOS addEOS (specialTokenIds_get t' "BOS")
                (specialTokenIds_get t' "EOS")
                (tokenToId_get t' <$> tokens_of t text),
         t').
Proof.
  intros Hm. cbv zeta.
  assert (∀ n, bound_reached maxVocab n = false) as Hfree
    by (by destruct Hm as [-> | ->]).
  pose proof (train_same_options t text maxVocab append) as Hopt.
  pose proof (train_proto t text maxVocab append) as Hproto.
  assert (∀ x, x ∈ tokens_of t text →
               tokenToId_get (train t text maxVocab append) x ≠ Undefined)
    as Hall.
  { intros x Hx. unfold train. destruct text as [|c s].
    - unfold tokens_of in Hx. destruct (lowercase t); by apply elem_of_nil in Hx.
    - apply train_loop_unbounded; [done|]. apply sorted_entries_keys.
      rewrite (tokens_of_same_options t); [done|].
      destruct append; [done|apply resetVocab_same_options]. }
  assert (∀ x, x ∈ tokens_of t text →
     (∃ id, tokenToId (train t text maxVocab append) !! x = Some id
            ∧ tokenToId_get (train t text maxVocab append) x = Num id)
     ∨ (append = true ∧ tokenToId_proto t = true
        ∧ x ∈ object_prototype_keys
        ∧ tokenToId (train t text maxVocab append) !! x = None
        ∧ tokenToId_get (train t text maxVocab append) x = Inherited x))
    as Hread.
  { intros x Hx.
    destruct (tokenToId_get_defined _ x (Hall x Hx))
      as [?|(Hp & ? & ? & ?)]; [by left|right].
    rewrite Hproto in Hp. by destruct append. }
  split; [done|]. split.
  { intros Hnone x Hx.
    destruct (Hread x Hx) as [?|(-> & Hp & _)]; [done|].
    destruct Hnone; congruence. }
  intros addBOS addEOS.
  destruct (decide (text = "")) as [->|Hne]; [done|].
  rewrite encode_split by done.
  rewrite (tokens_of_same_options t) by done.
  by rewrite encode_loop_known.
Qed.

Lemma train_then_encode_witness :
  ((None : option Z) = None ∨ (None : option Z) = Some 0)
  ∧ (encode (train default_Tokenizer "to be or not to be" None false)
       "to be or not to be" true true).2
    = train default_Tokenizer "to be or not to be" None false.
Proof.
  split; [left; reflexivity|].
  exact (f_equal snd
           (proj2 (proj2 (train_then_encode default_Tokenizer
                            "to be or not to be" None false
                            (or_introl eq_refl))) true true)).
Defined.

Lemma train_loop_full (N : Z) reserved (l : list string) (t : Tokenizer) :
  N ≠ 0 → N ≤ vocabSize t - reserved → train_loop (Some N) reserved l t = t.
Proof.
  intros HN Hfull. destruct l as [|x l]; [done|]. simpl.
  assert (negb (N =? 0) && (N <=? vocabSize t - reserved) = true) as ->; [|done].
  apply andb_true_iff. split; [|by apply Z.leb_le].
  by apply negb_true_iff, Z.eqb_neq.
Qed.

(** X11. [train] with [append] and a bound [N] other than 0 never takes
    [vocabSize] beyond [N + 4] unless it was beyond already, and it never
    lowers it; on a tokenizer that has [N + 4] ids or more it changes
    nothing, whatever the text. *)
Theorem train_append_bounded (t : Tokenizer) (text : string) (N : Z) :
  N ≠ 0 →
  vocabSize t ≤ vocabSize (train t text (Some N) true)
                ≤ Z.max (vocabSize t) (N + 4)
  ∧ (N + 4 ≤ vocabSize t → train t text (Some N) true = t).
Proof.
  intros HN. unfold train. change (reserved_count t) with 4.
  destruct text as [|c s]; [split; [lia|done]|].
  set (l := (sorted_entries (count_tokens (tokens_of t (String c s)))).*1).
  split.
  - split; [apply train_loop_vocabSize_le|].
    destruct (decide (vocabSize t - 4 ≤ N)) as [Hle|Hgt].
    + pose proof (train_loop_bounded N 4 l t HN Hle). lia.
    + rewrite train_loop_full by lia. lia.
  - intros Hfull. apply train_loop_full; [done|lia].
Qed.

Lemma train_append_bounded_witness :
  2 ≠ 0
  ∧ vocabSize (train default_Tokenizer "to be or not to be" (Some 2) true) ≤ 6.
Proof.
  split; [lia|].
  exact (proj2 (proj1 (train_append_bounded default_Tokenizer
                         "to be or not to be" 2 ltac:(lia)))).
Defined.

(** X12. The condition that the two maps are inverse to each other on the
    ids 0 to [vocabSize - 1] is kept by [train] and by [encode] from every
    tokenizer that has it, also from one that [load] filled with such maps;
    and [resetVocab] establishes it from any tokenizer. *)
Theorem dense_kept (t : Tokenizer) :
  (dense t →
   ∀ text,
     (∀ maxVocab append,
        dense (train t text maxVocab append)
        ∧ bijective (train t text maxVocab append))
     ∧ ∀ addBOS addEOS,
         dense (encode t text addBOS addEOS).2
         ∧ bijective (encode t text addBOS addEOS).2)
  ∧ dense (resetVocab t) ∧ bijective (resetVocab t).
Proof.
  split.
  - intros Hdense text. split.
    + intros maxVocab append.
      pose proof (dense_train t text maxVocab append Hdense).
      split; [done|by apply dense_bijective].
    + intros addBOS addEOS.
      pose proof (dense_encode t text addBOS addEOS Hdense).
      split; [done|by apply dense_bijective].
  - split; [apply dense_resetVocab|apply dense_bijective, dense_resetVocab].
Qed.

Lemma dense_kept_witness :
  dense default_Tokenizer
  ∧ bijective (train default_Tokenizer "to be or not to be" (Some 2) true).
Proof.
  assert (H : dense default_Tokenizer) by apply dense_resetVocab.
  split; [exact H|].
  exact (proj2 (proj1 (proj1 (dense_kept default_Tokenizer) H
                         "to be or not to be") (Some 2) true)).
Defined.

(** ** The token pattern *)

Lemma append_cons (x : ascii) (a b : string) :
  String x a +:+ b = String x (a +:+ b).
Proof. reflexivity. Qed.

Lemma append_assoc (a b c : string) : (a +:+ b) +:+ c = a +:+ (b +:+ c).
Proof.
  induction a as [|x a IH]; [done|]. by rewrite !append_cons, IH.
Qed.

Lemma append_empty_r (a : string) : a +:+ "" = a.
Proof. induction a as [|x a IH]; [done|]. by rewrite append_cons, IH. Qed.

Lemma all_run_snoc (run : string) (c : ascii) :
  all_run run = true → is_run c = true → all_run (run +:+ String c "") = true.
Proof.
  intros Hrun Hc. induction run as [|x run IH].
  - simpl. by rewrite Hc.
  - rewrite append_cons. simpl in *.
    apply andb_true_iff in Hrun as [-> Hrun]. by apply IH.
Qed.

Lemma scan_shape (s run : string) (tok : string) :
  all_run run = true → tok ∈ scan run s → token_shape tok.
Proof.
  revert run. induction s as [|c s IH]; intros run Hrun; simpl.
  - unfold flush. destruct (decide (run = "")); [by intros ?%elem_of_nil|].
    intros ->%list_elem_of_singleton. by left.
  - destruct (is_run c) eqn:Hc.
    + apply IH. by apply all_run_snoc.
    + assert (tok ∈ (if is_space c then scan "" s
                     else String c "" :: scan "" s) → token_shape tok) as Hrest.
      { destruct (is_space c) eqn:Hsp; [by apply IH|].
        intros [->|Htok]%elem_of_cons; [|by apply (IH "")].
        right. by exists c. }
      unfold flush. destruct (decide (run = "")); [done|].
      intros [->|Htok]%elem_of_cons; [by left|by apply Hrest].
Qed.

(** X13. Every token that the pattern finds in a text is either a non-empty
    run of letters, digits, underscores and apostrophes, or a single
    character that is neither white space nor one of those; no token is
    empty. *)
Theorem match_tokens_shape (text tok : string) :
  tok ∈ match_tokens text → token_shape tok ∧ tok ≠ "".
Proof.
  intros Htok%(scan_shape text ""); [|done]. split; [done|].
  by destruct Htok as [[? _]|(c & -> & _)].
Qed.

Lemma match_tokens_shape_witness :
  "don't" ∈ match_tokens "I don't know." ∧ token_shape "don't".
Proof.
  assert (H : "don't" ∈ match_tokens "I don't know.")
    by (vm_compute; set_solver).
  split; [exact H|]. exact (proj1 (match_tokens_shape _ _ H)).
Defined.

Lemma scan_concat (s run : string) :
  concat_strings (scan run s) = run +:+ strip_spaces s.
Proof.
  assert (∀ run rest, concat_strings (flush run rest)
                      = run +:+ concat_strings rest) as Hflush.
  { intros r rest. unfold flush. by destruct (decide (r = "")) as [->|]. }
  revert run. induction s as [|c s IH]; intros run; cbn [scan strip_spaces].
  - by rewrite Hflush.
  - destruct (is_run c) eqn:Hc.
    + rewrite IH, append_assoc.
      destruct (is_space c) eqn:Hsp; [|done].
      apply is_space_not_run in Hsp. congruence.
    + rewrite Hflush. f_equal. destruct (is_space c); [apply IH|].
      cbn [concat_strings foldr]. fold (concat_strings (scan "" s)).
      by rewrite IH.
Qed.

Lemma match_tokens_concat (text : string) :
  concat_strings (match_tokens text) = strip_spaces text.
Proof. apply scan_concat. Qed.

(** X14. The tokens of a text, put one after the other, are the text
    without its white space: the pattern drops white space and nothing
    else, and cuts the rest into tokens. *)
Theorem match_tokens_cover (text : string) :
  concat_strings (match_tokens text) = strip_spaces text.
Proof. apply match_tokens_concat. Qed.

(** ** Case folding *)

Lemma lower_char_lower_char (c : ascii) :
  lower_char (lower_char c) = lower_char c.
Proof. destruct c as [[] [] [] [] [] [] [] []]; vm_compute; reflexivity. Qed.

Lemma toLowerCase_toLowerCase (s : string) :
  toLowerCase (toLowerCase s) = toLowerCase s.
Proof.
  induction s as [|c s IH]; simpl; [done|].
  by rewrite lower_char_lower_char, IH.
Qed.

(** X15. A tokenizer with [lowercase] does not tell apart two texts that
    differ in the case of their letters only: [encode] and [train] do the
    same on both.  In particular a text and its lower-case form are treated
    alike. *)
Theorem case_insensitive (t : Tokenizer) (a b : string) :
  lowercase t = true → toLowerCase a = toLowerCase b →
  (∀ addBOS addEOS, encode t a addBOS addEOS = encode t b addBOS addEOS)
  ∧ (∀ maxVocab append, train t a maxVocab append = train t b maxVocab append)
  ∧ toLowerCase (toLowerCase a) = toLowerCase a.
Proof.
  intros Hlc Hab.
  assert (∀ t', lowercase t' = true → tokens_of t' a = tokens_of t' b) as Htok.
  { intros t' Ht'. unfold tokens_of. by rewrite Ht', Hab. }
  assert (a = "" ↔ b = "") as Hempty.
  { destruct a, b; simpl in Hab; split; intros; congruence. }
  split; [|split; [|apply toLowerCase_toLowerCase]].
  - intros addBOS addEOS.
    destruct (decide (a = "")) as [->|Ha].
    + by rewrite (proj1 Hempty eq_refl).
    + assert (b ≠ "") as Hb by tauto.
      by rewrite !encode_split, Htok by done.
  - intros maxVocab append. unfold train.
    assert (lowercase (if append then t else resetVocab t) = true) as Hlc0.
    { destruct append; [done|]. by rewrite resetVocab_lowercase. }
    destruct a as [|ca a], b as [|cb b]; try done;
      try (exfalso; destruct Hempty; congruence).
    by rewrite Htok.
Qed.

Lemma case_insensitive_witness :
  lowercase default_Tokenizer = true
  ∧ toLowerCase "Hello World" = toLowerCase "hELLO wORLD"
  ∧ encode default_Tokenizer "Hello World" true false
    = encode default_Tokenizer "hELLO wORLD" true false.
Proof.
  split; [reflexivity|]. split; [reflexivity|].
  exact (proj1 (case_insensitive default_Tokenizer "Hello World" "hELLO wORLD"
                  eq_refl eq_refl) true false).
Defined.

(** ** De-spacing *)

Lemma is_punct_not_space (c : ascii) : is_punct c = true → is_space c = false.
Proof. destruct c as [[] [] [] [] [] [] [] []]; vm_compute; congruence. Qed.

Lemma strip_spaces_cons (c : ascii) (s : string) :
  strip_spaces (String c s)
  = if is_space c then strip_spaces s else String c (strip_spaces s).
Proof. reflexivity. Qed.

Lemma despace_cons (c d : ascii) (s : string) :
  despace (String c (String d s))
  = if is_space c && is_punct d then String d (despace s)
    else String c (despace (String d s)).
Proof. reflexivity. Qed.

Lemma strip_spaces_despace (s : string) :
  strip_spaces (despace s) = strip_spaces s.
Proof.
  assert (∀ n s, (String.length s ≤ n)%nat →
                 strip_spaces (despace s) = strip_spaces s) as H;
    [|by apply (H (String.length s))].
  clear s. induction n as [|n IH]; intros s Hn.
  - destruct s; [done|simpl in Hn; lia].
  - destruct s as [|c [|d s]]; [done..|].
    rewrite despace_cons. destruct (is_space c && is_punct d) eqn:Hcd.
    + apply andb_true_iff in Hcd as [Hc Hd]. apply is_punct_not_space in Hd.
      rewrite (strip_spaces_cons c), !(strip_spaces_cons d), Hc, Hd.
      rewrite IH; [done|]. simpl in Hn. lia.
    + rewrite !(strip_spaces_cons c).
      by rewrite (IH (String d s)) by (simpl in *; lia).
Qed.

Lemma strip_spaces_append (a b : string) :
  strip_spaces (a +:+ b) = strip_spaces a +:+ strip_spaces b.
Proof.
  induction a as [|c a IH]; [done|]. rewrite append_cons. simpl.
  destruct (is_space c); [done|]. by rewrite append_cons, IH.
Qed.

Lemma strip_spaces_join_sp (l : list string) :
  strip_spaces (join_sp l) = concat_strings (strip_spaces <$> l).
Proof.
  induction l as [|x [|y l] IH]; [done| |].
  - simpl. by rewrite append_empty_r.
  - change (join_sp (x :: y :: l)) with (x +:+ " " +:+ join_sp (y :: l)).
    rewrite !strip_spaces_append, IH. done.
Qed.

Lemma strip_spaces_concat (l : list string) :
  strip_spaces (concat_strings l) = concat_strings (strip_spaces <$> l).
Proof.
  induction l as [|x l IH]; [done|]. simpl.
  by rewrite strip_spaces_append, IH.
Qed.

Lemma strip_spaces_strip_spaces (s : string) :
  strip_spaces (strip_spaces s) = strip_spaces s.
Proof.
  induction s as [|c s IH]; simpl; [done|].
  destruct (is_space c) eqn:Hc; [done|]. simpl. by rewrite Hc, IH.
Qed.

(** X16. [decode] loses no character of the tokens but white space: the
    text it returns, white space removed, is the tokens it kept, white
    space removed, one after the other. *)
Theorem decode_keeps_characters (t : Tokenizer) (ids : list Z)
    (skipSpecial : bool) :
  strip_spaces (decode t ids skipSpecial)
  = concat_strings
      (strip_spaces
       <$> (if skipSpecial
            then filter (λ tok, tok ∉ special_values (specialTokens t))
                        (decode_tokens t ids)
            else decode_tokens t ids)).
Proof.
  unfold decode.
  destruct skipSpecial; by rewrite strip_spaces_despace, strip_spaces_join_sp.
Qed.

(** X17. On a tokenizer that calls other than [load] lead to, with
    [learnOnEncode]: [encode] followed by [decode] without [skipSpecial]
    gives back the text, case-folded if [lowercase] is set, up to white
    space. *)
Theorem text_round_trip (t : Tokenizer) (text : string) :
  reachable false t → learnOnEncode t = true →
  ∃ ids : list Z,
    (encode t text false false).1 = Num <$> ids
    ∧ strip_spaces (decode (encode t text false false).2 ids false)
      = strip_spaces (if lowercase t then toLowerCase text else text).
Proof.
  intros Hreach Hlearn.
  destruct (encode_ids_tokens t text false false Hreach Hlearn)
    as (ids & Hids & _ & Hdec & _).
  exists ids. split; [done|].
  destruct (decide (text = "")) as [->|Hne].
  { destruct ids; [|done]. by destruct (lowercase t). }
  unfold decode. rewrite (Hdec Hne). unfold framed. simpl. rewrite app_nil_r.
  rewrite strip_spaces_despace, strip_spaces_join_sp, <- strip_spaces_concat.
  unfold tokens_of. by rewrite match_tokens_concat, strip_spaces_strip_spaces.
Qed.

Lemma text_round_trip_witness :
  reachable false default_Tokenizer
  ∧ learnOnEncode default_Tokenizer = true
  ∧ ∃ ids : list Z,
      (encode default_Tokenizer "Good  Morning , all !" false false).1
      = Num <$> ids
      ∧ strip_spaces
          (decode (encode default_Tokenizer "Good  Morning , all !"
                     false false).2 ids false)
        = "goodmorning,all!".
Proof.
  assert (H : reachable false default_Tokenizer) by apply reach_new.
  split; [exact H|]. split; [reflexivity|].
  destruct (text_round_trip default_Tokenizer "Good  Morning , all !"
              H eq_refl) as (ids & Hids & Htext).
  exists ids. split; [exact Hids|]. exact Htext.
Defined.

(** ** The handlers of the page *)

Lemma digits_value_digit (acc : N) (d : N) (s : string) :
  (d < 10)%N →
  digits_value acc (String (pretty_N_char d) s)
  = digits_value (acc * 10 + d) s.
Proof.
  intros Hd.
  assert (d = 0 ∨ d = 1 ∨ d = 2 ∨ d = 3 ∨ d = 4 ∨ d = 5 ∨ d = 6 ∨ d = 7
          ∨ d = 8 ∨ d = 9)%N as Hcases by lia.
  destruct Hcases as [-> | [-> | [-> | [-> | [-> | [-> | [-> | [-> | [-> | ->]]]]]]]]];
    reflexivity.
Qed.

Lemma digits_value_pretty_N_go (x : N) (s : string) (acc : N) :
  ∃ k : N, digits_value acc (pretty_N_go x s)
           = digits_value (acc * 10 ^ k + x) s.
Proof.
  revert s. induction (N.lt_wf_0 x) as [x _ IH]; intros s.
  destruct (decide (x = 0)%N) as [->|Hx].
  - exists 0%N. rewrite pretty_N_go_0. f_equal. lia.
  - rewrite pretty_N_go_step by lia.
    destruct (IH (x `div` 10)%N) with (s := String (pretty_N_char (x `mod` 10)) s)
      as [k Hk]; [apply N.div_lt; lia|].
    exists (k + 1)%N. rewrite Hk, digits_value_digit by (apply N.mod_lt; lia).
    f_equal. rewrite N.pow_add_r, N.pow_1_r.
    pose proof (N.div_mod x 10 ltac:(lia)). lia.
Qed.

(** The decimal rendering of a natural number reads back as that number. *)
Lemma digits_value_pretty (n : N) : digits_value 0 (pretty n) = Some n.
Proof.
  unfold pretty, pretty_N. case_decide as Hn; [by subst|].
  destruct (digits_value_pretty_N_go n "" 0) as [k ->].
  cbn [digits_value]. f_equal; lia.
Qed.

Lemma pretty_Z_N (z : Z) : 0 ≤ z → pretty z = pretty (Z.to_N z).
Proof. intros Hz. by destruct z. Qed.

Lemma digits_value_all_digits (s : string) (acc v : N) :
  digits_value acc s = Some v →
  ∀ run rest, scan_digits run (s +:+ rest) = scan_digits (run +:+ s) rest.
Proof.
  revert acc. induction s as [|c s IH]; intros acc Hv run rest.
  - by rewrite append_empty_r.
  - simpl in Hv. rewrite append_cons. cbn [scan_digits].
    destruct (between 48 57 c); [|done].
    rewrite (IH _ Hv).
    by rewrite append_assoc.
Qed.

Lemma scan_digits_join_comma (ds : list string) :
  Forall (λ d, d ≠ "" ∧ ∃ v, digits_value 0 d = Some v) ds →
  scan_digits "" (join_comma ds) = ds.
Proof.
  assert (∀ d, d ≠ "" → flush d [] = [d]) as Hflush1.
  { intros d Hd. unfold flush. by rewrite decide_False. }
  induction 1 as [|d ds [Hne [v Hv]] Hds IH]; [done|].
  destruct ds as [|d' ds].
  - cbn [join_comma]. rewrite <- (append_empty_r d) at 1.
    rewrite (digits_value_all_digits d 0 v Hv). change ("" +:+ d) with d.
    cbn [scan_digits]. by apply Hflush1.
  - change (join_comma (d :: d' :: ds))
      with (d +:+ "," +:+ join_comma (d' :: ds)).
    rewrite (digits_value_all_digits d 0 v Hv).
    change ("" +:+ d) with d. rewrite append_cons. cbn [scan_digits].
    change (between 48 57 ",") with false. cbn iota.
    change ("" +:+ join_comma (d' :: ds)) with (join_comma (d' :: ds)).
    rewrite IH. unfold flush. by rewrite decide_False.
Qed.

Lemma Number_of_digits_pretty (id : Z) :
  0 ≤ id ≤ 9007199254740992 → Number_of_digits (pretty id) = Some id.
Proof.
  intros Hid. unfold Number_of_digits.
  rewrite pretty_Z_N, digits_value_pretty by lia. simpl.
  destruct (_ <=? _)%N eqn:Hle.
  - f_equal. lia.
  - apply N.leb_gt in Hle. lia.
Qed.

Lemma pretty_nonneg_digits (id : Z) :
  0 ≤ id → pretty id ≠ "" ∧ ∃ v, digits_value 0 (pretty id) = Some v.
Proof.
  intros Hid. rewrite pretty_Z_N by done. split.
  - intros Hempty. pose proof (digits_value_pretty (Z.to_N id)) as Hv.
    rewrite Hempty in Hv. unfold pretty, pretty_N in Hempty.
    case_decide; [done|]. simpl in Hv. congruence.
  - eexists. apply digits_value_pretty.
Qed.

Lemma mapM_fmap_Some {A B} (f : B → option A) (g : A → B) (l : list A) :
  Forall (λ x, f (g x) = Some x) l → mapM f (g <$> l) = Some l.
Proof.
  intros H. apply mapM_Some, Forall2_fmap_l. by apply Forall_Forall2_diag.
Qed.

Lemma parse_joined_ids (ids : list Z) :
  Forall (λ id, 0 ≤ id ≤ 9007199254740992) ids →
  use_last_encoded (Num <$> ids) = Some (join_comma (pretty <$> ids))
  ∧ parseIdsFromString (join_comma (pretty <$> ids)) = Some ids.
Proof.
  intros Hids. split.
  - unfold use_last_encoded.
    assert (mapM show_id (Num <$> ids) = Some (pretty <$> ids)) as ->; [|done].
    apply mapM_Some, Forall2_fmap. by apply Forall_Forall2_diag, Forall_true.
  - assert (scan_digits "" (join_comma (pretty <$> ids)) = pretty <$> ids)
      as Hscan.
    { apply scan_digits_join_comma, Forall_fmap.
      eapply Forall_impl; [exact Hids|]. intros id [? _].
      by apply pretty_nonneg_digits. }
    assert (mapM Number_of_digits (pretty <$> ids) = Some ids) as Hmap.
    { apply mapM_fmap_Some. eapply Forall_impl; [exact Hids|].
      intros id Hid. by apply Number_of_digits_pretty. }
    unfold parseIdsFromString.
    destruct (join_comma (pretty <$> ids)) eqn:Hjoin;
      [|by rewrite Hscan, Hmap].
    destruct ids as [|id ids]; [done|]. exfalso.
    apply Forall_cons in Hids as [[Hid _] _].
    destruct (pretty_nonneg_digits id Hid) as [Hne _].
    rewrite fmap_cons in Hjoin. destruct (pretty id); [done|].
    by destruct (pretty <$> ids).
Qed.

(** X18. [parseIdsFromString] reads back the ids that [join(",")] wrote:
    for ids from 0 to 2^53, parsing the text of the button [Use last
    encoded] gives these ids again, in order. *)
Theorem parseIds_join (ids : list Z) :
  Forall (λ id, 0 ≤ id ≤ 9007199254740992) ids →
  use_last_encoded (Num <$> ids) = Some (join_comma (pretty <$> ids))
  ∧ parseIdsFromString (join_comma (pretty <$> ids)) = Some ids.
Proof. apply parse_joined_ids. Qed.

Lemma parseIds_join_witness :
  Forall (λ id, 0 ≤ id ≤ 9007199254740992) [2; 14; 305; 3]
  ∧ parseIdsFromString (join_comma (pretty <$> [2; 14; 305; 3]))
    = Some [2; 14; 305; 3].
Proof.
  assert (H : Forall (λ id, 0 ≤ id ≤ 9007199254740992) [2; 14; 305; 3])
    by (repeat constructor; lia).
  split; [exact H|]. exact (proj2 (parseIds_join _ H)).
Defined.

Lemma trim_end_empty (s : string) : trim_end s = "" ↔ all_space s = true.
Proof.
  induction s as [|c s IH]; [done|]. cbn [trim_end all_space].
  destruct (trim_end s) eqn:Hs.
  - destruct (is_space c); [|done]. simpl. tauto.
  - split; [done|]. intros [_ Hall]%andb_true_iff. by apply IH in Hall.
Qed.

Lemma all_space_trim_start (s : string) :
  all_space (trim_start s) = all_space s.
Proof.
  induction s as [|c s IH]; [done|]. cbn [trim_start].
  destruct (is_space c) eqn:Hc; [|done]. simpl. by rewrite Hc.
Qed.

(** [trim] leaves nothing exactly of the texts of white space. *)
Lemma trim_empty (s : string) : trim s = "" ↔ all_space s = true.
Proof. unfold trim. by rewrite trim_end_empty, all_space_trim_start. Qed.

Lemma handleEncode_blank (t : Tokenizer) (text : string) (addBOS addEOS : bool) :
  all_space text = true →
  handleEncode t text addBOS addEOS = (Some (Alert no_text_alert), t).
Proof.
  intros Hsp%trim_empty. unfold handleEncode.
  destruct text; [done|]. by rewrite Hsp.
Qed.

Lemma handleEncode_text (t : Tokenizer) (text : string) (addBOS addEOS : bool) :
  all_space text = false →
  handleEncode t text addBOS addEOS
  = ((λ tokens, Shown ((encode t text addBOS addEOS).1, tokens,
                       getVocab (encode t text addBOS addEOS).2))
     <$> mapM (display_token (encode t text addBOS addEOS).2)
              (encode t text addBOS addEOS).1,
     (encode t text addBOS addEOS).2).
Proof.
  intros Hsp. unfold handleEncode. destruct text as [|c s]; [done|].
  destruct (trim (String c s)) eqn:Htrim.
  { apply trim_empty in Htrim. congruence. }
  by destruct (encode _ _ _ _).
Qed.

(** X19. [handleEncode] calls [encode] on the texts that have a token and
    on no other: for a text that is empty or of white space only it raises
    its alert and leaves the tokenizer as it is; for every other text the
    tokenizer afterwards is the one [encode] leaves, and what is shown are
    the ids [encode] returned, one token for each of them, and the snapshot
    of [getVocab]. *)
Theorem handleEncode_guard (t : Tokenizer) (text : string)
    (addBOS addEOS : bool) :
  (tokens_of t text = [] →
   handleEncode t text addBOS addEOS = (Some (Alert no_text_alert), t))
  ∧ (tokens_of t text ≠ [] →
     (handleEncode t text addBOS addEOS).2 = (encode t text addBOS addEOS).2
     ∧ ∀ ids tokens vocab,
         (handleEncode t text addBOS addEOS).1 = Some (Shown (ids, tokens, vocab)) →
         ids = (encode t text addBOS addEOS).1
         ∧ length tokens = length ids
         ∧ vocab = getVocab (encode t text addBOS addEOS).2).
Proof.
  assert (tokens_of t text = [] ↔ all_space text = true) as Hiff.
  { split; [|apply tokens_of_all_space]. unfold tokens_of.
    rewrite match_tokens_nil_iff. destruct (lowercase t); [|done].
    intros Hl. destruct (all_space text) eqn:Hsp; [done|].
    exfalso. revert Hl Hsp. clear. induction text as [|c s IH]; [done|].
    simpl. intros [Hc Hs]%andb_true_iff.
    assert (is_space c = true) as ->.
    { revert Hc. clear. destruct c as [[] [] [] [] [] [] [] []]; vm_compute;
        congruence. }
    simpl. by apply IH. }
  split.
  - intros Hnil%Hiff. by apply handleEncode_blank.
  - intros Hsome. assert (all_space text = false) as Hsp.
    { clear Hiff. destruct (all_space text) eqn:Hsp; [|done].
      exfalso. by apply Hsome, tokens_of_all_space. }
    rewrite handleEncode_text by done. cbn [fst snd]. split; [done|].
    intros ids tokens vocab Hshown.
    destruct (mapM _ _) as [toks|] eqn:Hmap; [|done].
    simpl in Hshown. injection Hshown as <- <- <-.
    apply mapM_Some, Forall2_length in Hmap. by rewrite Hmap.
Qed.

Lemma handleEncode_guard_witness :
  tokens_of default_Tokenizer "  " = []
  ∧ handleEncode default_Tokenizer "  " true true
    = (Some (Alert no_text_alert), default_Tokenizer).
Proof.
  split; [reflexivity|].
  exact (proj1 (handleEncode_guard default_Tokenizer "  " true true) eq_refl).
Defined.

(** X20. The page, where no call of [load] came before, with
    [learnOnEncode] and no more than 2^53 ids: after [handleEncode] on a
    text that has a token, the tokens shown are the tokens of the text
    between the strings of the markers asked for (with [[UNK]] for an empty
    string); and [Use last encoded] followed by [handleDecode] shows the
    tokens of the text that are no special strings, joined and
    de-spaced. *)
Theorem page_round_trip (t : Tokenizer) (text : string) (addBOS addEOS : bool) :
  reachable false t → learnOnEncode t = true →
  tokens_of t text ≠ [] →
  vocabSize (encode t text addBOS addEOS).2 ≤ 9007199254740992 →
  let t' := (encode t text addBOS addEOS).2 in
  let s := specialTokens t in
  ∃ ids input,
    handleEncode t text addBOS addEOS
    = (Some (Shown (ids,
                    (λ tok, match tok with "" => "[UNK]" | _ => tok end)
                    <$> framed addBOS addEOS (BOS s) (EOS s) (tokens_of t text),
                    getVocab t')),
       t')
    ∧ use_last_encoded ids = Some input
    ∧ handleDecode t' input
      = Some (Shown (despace (join_sp (filter (λ tok, tok ∉ special_values s)
                                              (tokens_of t text))))).
Proof.
  intros Hreach Hlearn Htokens Hsize. cbv zeta.
  assert (all_space text = false) as Hsp.
  { destruct (all_space text) eqn:Hsp; [|done].
    by apply (tokens_of_all_space t) in Hsp. }
  assert (text ≠ "") as Hne by (by intros ->).
  destruct (encode_ids_tokens t text addBOS addEOS Hreach Hlearn)
    as (nums & Hids & Hrange & Hdec & Hdecode).
  specialize (Hdec Hne).
  assert (Forall (λ id, 0 ≤ id ≤ 9007199254740992) nums) as Hsafe.
  { apply Forall_forall. intros id Hid%Hrange. lia. }
  destruct (parse_joined_ids nums Hsafe) as [Hjoin Hparse].
  exists (Num <$> nums), (join_comma (pretty <$> nums)).
  split; [|split; [done|]].
  - rewrite handleEncode_text by done. rewrite Hids. f_equal.
    assert (mapM (display_token (encode t text addBOS addEOS).2) (Num <$> nums)
            = Some ((λ tok, match tok with "" => "[UNK]" | _ => tok end)
                    <$> decode_tokens (encode t text addBOS addEOS).2 nums))
      as ->; [|by rewrite Hdec].
    apply mapM_Some. unfold decode_tokens.
    rewrite <- list_fmap_compose. apply Forall2_fmap.
    apply Forall_Forall2_diag, Forall_forall. intros id Hid. simpl.
    apply list_elem_of_lookup in Hid as [i Hi].
    assert (decode_tokens (encode t text addBOS addEOS).2 nums !! i
            = framed addBOS addEOS (BOS (specialTokens t))
                (EOS (specialTokens t)) (tokens_of t text) !! i) as Hi'
      by (by rewrite Hdec).
    unfold decode_tokens in Hi'. rewrite list_lookup_fmap, Hi in Hi'.
    simpl in Hi'.
    pose proof (Hrange id ltac:(by eapply list_elem_of_lookup_2)) as Hid.
    pose proof (reach_encode false t text addBOS addEOS Hreach) as Hreach'.
    apply reachable_wellformed in Hreach' as (_ & Hgap & _).
    destruct (Hgap id Hid) as [tok Htok]. rewrite Htok. by destruct tok.
  - rewrite <- Hdecode. unfold handleDecode. rewrite Hparse.
    destruct nums as [|id nums]; [|done].
    exfalso. unfold decode_tokens in Hdec. simpl in Hdec.
    unfold framed in Hdec. symmetry in Hdec.
    apply app_eq_nil in Hdec as [_ Hdec]. apply app_eq_nil in Hdec as [? _].
    done.
Qed.

Lemma page_round_trip_witness :
  reachable false default_Tokenizer
  ∧ learnOnEncode default_Tokenizer = true
  ∧ tokens_of default_Tokenizer "Good morning, all!" ≠ []
  ∧ ∃ ids input,
      use_last_encoded ids = Some input
      ∧ handleDecode (encode default_Tokenizer "Good morning, all!" true true).2
          input
        = Some (Shown "good morning, all!").
Proof.
  assert (H : reachable false default_Tokenizer) by apply reach_new.
  assert (Ht : tokens_of default_Tokenizer "Good morning, all!" ≠ [])
    by (vm_compute; discriminate).
  split; [exact H|]. split; [reflexivity|]. split; [exact Ht|].
  destruct (page_round_trip default_Tokenizer "Good morning, all!" true true
              H eq_refl Ht ltac:(vm_compute; discriminate))
    as (ids & input & _ & Huse & Hdec).
  exists ids, input. split; [exact Huse|exact Hdec].
Defined.

(** ** load, once more *)

(** X21. A call of [load] on a non-empty text that returns normally takes
    nothing over from the vocabulary it finds: the three maps it leaves are
    the same from whatever tokenizer it starts; the options are kept; and
    [vocabSize] is the number of entries of the new [idToToken], whatever
    [tokenToId] holds. *)
Theorem load_replaces (t : Tokenizer) (s : string) (t' : Tokenizer) :
  s ≠ "" → load t (Some s) = (Normal, t') →
  same_options t t'
  ∧ vocabSize t' = Z.of_nat (size (idToToken t'))
  ∧ ∀ t2, load t2 (Some s)
          = (Normal,
             with_vocab t2 (tokenToId_proto t') (tokenToId t') (idToToken t')
               (vocabSize t') (specialTokenIds t')).
Proof.
  intros Hne Hload. unfold load in *. destruct s as [|c s]; [done|].
  destruct (Json.parse (String c s)) as [parsed|]; [|done].
  destruct (get_property parsed "tokenToId") as [v1|]; [|done].
  destruct (or_empty exact_integer v1) as [[p1 m1]|]; [|done].
  destruct (get_property parsed "idToToken") as [v2|]; [|done].
  destruct (or_empty narrow_string v2) as [[p2 m2]|]; [|done].
  destruct (get_property parsed "specialTokenIds") as [v3|]; [|done].
  destruct (or_empty _ v3) as [[p3 m3]|]; [|done].
  injection Hload as <-. done.
Qed.

Lemma load_replaces_witness :
  saved_default_vocab ≠ ""
  ∧ vocabSize (load (encode default_Tokenizer "Hello world" true true).2
                 (Some saved_default_vocab)).2
    = 4.
Proof.
  assert (Hne : saved_default_vocab ≠ "") by (vm_compute; discriminate).
  split; [exact Hne|].
  exact (proj1 (proj2 (load_replaces
                         (encode default_Tokenizer "Hello world" true true).2
                         saved_default_vocab _ Hne eq_refl))).
Defined.
